(** * fallbackValue: a safe path accessor for nested data

    A shallow embedding of [src/index.ts]: the path tokenizer [tokenize] and
    the traversal function [fallbackValue], over a small model of the
    JavaScript values the function inspects (primitives and heap-allocated
    objects with own properties and a prototype link).

    Strings are [String.string]; a path is read through [String.get], which
    plays the role of [path[i]] ([None] stands for the [undefined] obtained
    beyond the end of the string).  Characters are 8-bit: the tokenizer
    compares them with the backslash, the dot and the two brackets only.
    Module [JS] has the objects the accessor is specified for, records and
    arrays with data properties; module [Accessors] adds accessor
    properties, whose getters run, assign and throw when the traverser reads
    them, and shows that the two embeddings agree on data.  Proxies are
    left out. *)

From Stdlib Require Import String Ascii ZArith.
From stdpp Require Import gmap strings list pretty.
From Equations Require Import Equations.

Local Open Scope string_scope.

(** ** Tokenizer *)

Module Tokenizer.

(** The value of a [with] scrutinee together with the equation that defines
    it, so that termination proofs can see which branch they are in. *)
Definition inspect {A} (a : A) : {b : A | a = b} := exist _ a eq_refl.

#[local] Notation "x 'eqn:' p" := (exist _ x p) (only parsing, at level 20).

(** [c === "x"] for a character read with [path[i]]. *)
Definition is_char (c : option ascii) (a : ascii) : bool :=
  bool_decide (c = Some a).

(** [current += ch]. *)
Definition add_char (current : string) (ch : ascii) : string :=
  current ++ String ch "".

(** [if (current) segments.push(current)]: the empty string is falsy. *)
Definition push (segments : list string) (current : string) : list string :=
  if decide (current = "") then segments else segments ++ [current].

Lemma get_lt path i ch : String.get i path = Some ch -> i < String.length path.
Proof.
  revert i; induction path as [|a p IH]; intros [|i]; simpl;
    try discriminate; try lia.
  intros H. apply IH in H. lia.
Qed.

(** The inner loop of the bracket case:
    [while (i < path.length && path[i] !== "]") current += path[i++];]
    It returns the final index and the final accumulator. *)
Equations? read_bracket (path : string) (i : nat) (current : string)
  : nat * string by wf (String.length path - i) lt :=
  read_bracket path i current with inspect (String.get i path) := {
    | None eqn:_ => (i, current)
    | Some ch eqn:H =>
        if Ascii.eqb ch "]" then (i, current)
        else read_bracket path (i + 1) (add_char current ch) }.
Proof. apply get_lt in H. lia. Qed.

Lemma read_bracket_ge path i current :
  i <= fst (read_bracket path i current).
Proof.
  funelim (read_bracket path i current); [|simpl; lia].
  destruct (Ascii.eqb ch "]"); simpl in *; lia.
Qed.

(** [if (path[i] === ".") i++;] *)
Definition skip_dot (path : string) (i : nat) : nat :=
  if is_char (String.get i path) "." then i + 1 else i.

(** The main loop [while (i < path.length) { ... }] followed by the final
    [if (current) segments.push(current); return segments;].  The state is
    the triple of the source's mutable variables [i], [current] and
    [segments].  The loop test and [const ch = path[i]] are one match:
    [String.get i path] is [Some ch] exactly when [i < path.length]. *)
Equations? tokenize_loop (path : string) (i : nat) (current : string)
  (segments : list string) : list string
  by wf (String.length path - i) lt :=
  tokenize_loop path i current segments with inspect (String.get i path) := {
    | None eqn:_ => push segments current
    | Some ch eqn:H =>
        if Ascii.eqb ch "\" && is_char (String.get (i + 1) path) "." then
          tokenize_loop path (i + 2) (current ++ ".") segments
        else if Ascii.eqb ch "." then
          tokenize_loop path (i + 1) "" (push segments current)
        else if Ascii.eqb ch "[" then
          tokenize_loop path
            (skip_dot path (fst (read_bracket path (i + 1) "") + 1)) ""
            (push (push segments current)
                  (snd (read_bracket path (i + 1) "")))
        else
          tokenize_loop path (i + 1) (add_char current ch) segments }.
Proof.
  all: apply get_lt in H.
  all: try lia.
  pose proof (read_bracket_ge path (i + 1) "").
  unfold skip_dot. destruct (is_char _ _); lia.
Qed.

Definition tokenize (path : string) : list string :=
  tokenize_loop path 0 "" [].

End Tokenizer.

(** ** The values the traverser inspects *)

Module JS.

(** Objects live in a heap and are referred to by location, so that two
    paths to the same object are the same object. *)
Definition loc := positive.

(** Numbers carry an integer: the code never computes with them. *)
Inductive value : Set :=
| VUndefined
| VNull
| VBoolean (b : bool)
| VNumber (n : Z)
| VBigInt (n : Z)
| VString (s : string)
| VSymbol (id : positive)
| VObject (l : loc).

(** An object: whether it is callable (a function), its prototype link and
    its own data properties.  This is the data fragment of the host's
    objects; module [Accessors] below adds accessor properties, whose
    getters run when they are read, and relates the two. *)
Record object : Set := Obj {
  obj_callable : bool;
  obj_proto : option loc;
  obj_props : gmap string value
}.

Abbreviation heap := (gmap loc object).

(** Locations of the built-in prototype objects. *)
Definition loc_ObjectPrototype : loc := 1%positive.
Definition loc_FunctionPrototype : loc := 2%positive.
Definition loc_ArrayPrototype : loc := 3%positive.
Definition loc_StringPrototype : loc := 4%positive.
Definition loc_NumberPrototype : loc := 5%positive.
Definition loc_BooleanPrototype : loc := 6%positive.
Definition loc_SymbolPrototype : loc := 7%positive.
Definition loc_BigIntPrototype : loc := 8%positive.

Definition empty_object : object := Obj false None ∅.

(** The object stored at a location. *)
Definition deref (h : heap) (l : loc) : object :=
  default empty_object (h !! l).

(** An object literal [{ k1: v1, ... }]; a repeated key keeps its last
    value. *)
Definition object_literal (props : list (string * value)) : object :=
  Obj false (Some loc_ObjectPrototype) (list_to_map (reverse props)).

(** The own properties of an array or of a string: one per index, under the
    decimal spelling of the index, and [length]. *)
Definition indexed_props (elems : list value) : gmap string value :=
  <["length" := VNumber (Z.of_nat (length elems))]>
    (list_to_map (imap (fun i v => (pretty i, v)) elems)).

(** An array literal [[v0, v1, ...]]. *)
Definition array_literal (elems : list value) : object :=
  Obj false (Some loc_ArrayPrototype) (indexed_props elems).

(** Outcome of an operation that may throw. *)
Inductive js_error : Set := TypeError.

Inductive outcome (A : Type) : Type :=
| Normal (a : A)
| Throw (e : js_error).
Arguments Normal {A} a.
Arguments Throw {A} e.

(** [typeof v] *)
Definition typeof (h : heap) (v : value) : string :=
  match v with
  | VUndefined => "undefined"
  | VNull => "object"
  | VBoolean _ => "boolean"
  | VNumber _ => "number"
  | VBigInt _ => "bigint"
  | VString _ => "string"
  | VSymbol _ => "symbol"
  | VObject l => if obj_callable (deref h l) then "function" else "object"
  end.

(** [v == null] *)
Definition loose_eq_null (v : value) : bool :=
  match v with
  | VUndefined | VNull => true
  | _ => false
  end.

(** [v === undefined] *)
Definition is_undefined (v : value) : bool :=
  match v with
  | VUndefined => true
  | _ => false
  end.

(** The object a property access works on: the object itself, or the
    wrapper of a primitive; [null] and [undefined] have none. *)
Definition to_object (h : heap) (v : value) : outcome object :=
  match v with
  | VUndefined | VNull => Throw TypeError
  | VBoolean _ => Normal (Obj false (Some loc_BooleanPrototype) ∅)
  | VNumber _ => Normal (Obj false (Some loc_NumberPrototype) ∅)
  | VBigInt _ => Normal (Obj false (Some loc_BigIntPrototype) ∅)
  | VString s =>
      Normal (Obj false (Some loc_StringPrototype)
                (indexed_props
                   ((fun c => VString (String c "")) <$>
                    list_ascii_of_string s)))
  | VSymbol _ => Normal (Obj false (Some loc_SymbolPrototype) ∅)
  | VObject l => Normal (deref h l)
  end.

(** [Object.prototype.hasOwnProperty.call(v, key)] *)
Definition hasOwnProperty (h : heap) (v : value) (key : string)
  : outcome bool :=
  match to_object h v with
  | Normal o => Normal (bool_decide (is_Some (obj_props o !! key)))
  | Throw e => Throw e
  end.

(** Property lookup along the prototype chain, at most [fuel] links deep. *)
Fixpoint get_from (fuel : nat) (h : heap) (o : object) (key : string)
  : value :=
  match obj_props o !! key with
  | Some v => v
  | None =>
      match fuel, obj_proto o with
      | S fuel', Some p => get_from fuel' h (deref h p) key
      | _, _ => VUndefined
      end
  end.

(** [v[key]].  The lookup follows at most [size h] prototype links.  An own
    property is found before any link is followed, whatever the fuel. *)
Definition get (h : heap) (v : value) (key : string) : outcome value :=
  match to_object h v with
  | Normal o => Normal (get_from (size h) h o key)
  | Throw e => Throw e
  end.

(** Computations that run against the heap and may throw. *)
Definition M (A : Type) : Type := heap -> outcome A * heap.

Definition ret {A} (a : A) : M A := fun h => (Normal a, h).

Definition bind {A B} (m : M A) (f : A -> M B) : M B :=
  fun h =>
    match m h with
    | (Normal a, h') => f a h'
    | (Throw e, h') => (Throw e, h')
    end.

(** An operation that only reads the heap. *)
Definition reading {A} (f : heap -> outcome A) : M A := fun h => (f h, h).

End JS.

Declare Scope js_scope.
Delimit Scope js_scope with js.
Notation "x <- m ;; k" := (JS.bind m (fun x => k))
  (at level 100, m at next level, right associativity) : js_scope.

(** ** Traverser *)

Module Traverser.
Import JS Tokenizer.
Local Open Scope js_scope.

(** What a local variable holds after the own-property test: the private
    symbol [SENTINEL], which is no stored value, or a stored value. *)
Inductive slot : Set :=
| SENTINEL
| Stored (v : value).

Definition UNSAFE_KEYS : gset string :=
  list_to_set ["__proto__"; "prototype"; "constructor"].

(** [UNSAFE_KEYS.has(segment)] *)
Definition UNSAFE_KEYS_has (segment : string) : bool :=
  bool_decide (segment ∈ UNSAFE_KEYS).

(** The [path] argument, of type [string | null | undefined]. *)
Inductive path_arg : Set :=
| PathUndefined
| PathNull
| PathString (s : string).

(** [path != null] *)
Definition path_given (path : path_arg) : option string :=
  match path with
  | PathString s => Some s
  | _ => None
  end.

(** How the [for] loop ends: by a [return] inside its body, or by running
    out of segments with [current] as it then stands. *)
Inductive completion : Set :=
| Returned (v : value)
| Finished (current : value).

(** [current == null ||
     (typeof current !== "object" && typeof current !== "function")] *)
Definition not_traversable (h : heap) (current : value) : bool :=
  loose_eq_null current
  || (negb (String.eqb (typeof h current) "object")
      && negb (String.eqb (typeof h current) "function")).

(** [hasOwnProperty.call(current, segment) ? current[segment] : SENTINEL] *)
Definition own_or_sentinel (current : value) (segment : string) : M slot :=
  has <- reading (fun h => hasOwnProperty h current segment) ;;
  if has : bool then
    v <- reading (fun h => get h current segment) ;; ret (Stored v)
  else ret SENTINEL.

(** [for (const segment of segments) { ... }] *)
Fixpoint for_segments (segments : list string) (current defaultVal : value)
  : M completion :=
  match segments with
  | [] => ret (Finished current)
  | segment :: rest =>
      if UNSAFE_KEYS_has segment then ret (Returned defaultVal) else
      stop <- reading (fun h => Normal (not_traversable h current)) ;;
      if stop : bool then ret (Returned defaultVal) else
      next <- own_or_sentinel current segment ;;
      match next with
      | SENTINEL => ret (Returned defaultVal)
      | Stored v => for_segments rest v defaultVal
      end
  end.

(** The body of [fallbackValue(val, path, defaultVal)].  [defaultVal] is the
    parameter as the body sees it, after its initializer [= null] has
    replaced a missing argument (see [call_fallbackValue]). *)
Definition fallbackValue (val : value) (path : path_arg) (defaultVal : value)
  : M value :=
  match path_given path with
  | Some p =>
      c <- for_segments (tokenize p) val defaultVal ;;
      match c with
      | Returned r => ret r
      | Finished current =>
          ret (if is_undefined current then defaultVal else current)
      end
  | None => ret (if loose_eq_null val then defaultVal else val)
  end.

(** A call with the third argument as the caller wrote it: omitted or
    [undefined], the parameter takes its default [null]. *)
Definition call_fallbackValue (val : value) (path : path_arg) (arg : value)
  : M value :=
  fallbackValue val path (if is_undefined arg then VNull else arg).

End Traverser.

(** ** Inputs used to state and test the properties *)

Module Scenario.
Import JS Tokenizer Traverser.

(** The path that names a key literally: every dot of the key is preceded
    by a backslash. *)
Fixpoint escape_dots (k : string) : string :=
  match k with
  | "" => ""
  | String c k' =>
      if Ascii.eqb c "." then String "\" (String "." (escape_dots k'))
      else String c (escape_dots k')
  end.

(** [s] contains the character [c]. *)
Definition has_char (c : ascii) (s : string) : Prop :=
  In c (list_ascii_of_string s).

(** The bracket step as the specification words it: the bracket content is
    pushed as a segment whether or not it is empty. *)
Definition bracket_step_spec (segments : list string)
  (current content : string) : list string :=
  (push segments current ++ [content])%list.

(** A heap with the built-in prototypes: [Object.prototype] carries
    [toString], [hasOwnProperty] and [constructor]; [Array.prototype]
    carries [push]. *)
Definition builtin_function (name : string) (arity : Z) : object :=
  Obj true (Some loc_FunctionPrototype)
    (list_to_map [("name", VString name); ("length", VNumber arity)]).

(** The constructor [Object], which also owns [prototype]. *)
Definition object_constructor : object :=
  Obj true (Some loc_FunctionPrototype)
    (list_to_map [("name", VString "Object"); ("length", VNumber 1);
                  ("prototype", VObject loc_ObjectPrototype)]).

Definition builtins : heap :=
  list_to_map
    [(loc_ObjectPrototype,
      Obj false None
        (list_to_map [("toString", VObject 20%positive);
                      ("hasOwnProperty", VObject 21%positive);
                      ("constructor", VObject 22%positive)]));
     (loc_FunctionPrototype, Obj true (Some loc_ObjectPrototype) ∅);
     (loc_ArrayPrototype,
      Obj false (Some loc_ObjectPrototype)
        (list_to_map [("push", VObject 23%positive)]));
     (20%positive, builtin_function "toString" 0);
     (21%positive, builtin_function "hasOwnProperty" 1);
     (22%positive, object_constructor);
     (23%positive, builtin_function "push" 1)].

(** The heap holding the given objects next to the built-in ones. *)
Definition heap_with (objects : list (loc * object)) : heap :=
  list_to_map objects ∪ builtins.

Definition root : loc := 100%positive.
Definition inner : loc := 101%positive.

(** [{ items: [1, 2] }] *)
Definition heap_items : heap :=
  heap_with [(root, object_literal [("items", VObject inner)]);
             (inner, array_literal [VNumber 1; VNumber 2])].

(** [{ value: null }] and [{ value: undefined }] *)
Definition heap_value_null : heap :=
  heap_with [(root, object_literal [("value", VNull)])].

Definition heap_value_undefined : heap :=
  heap_with [(root, object_literal [("value", VUndefined)])].

(** [{}] and [{ a: {} }] *)
Definition heap_empty_object : heap :=
  heap_with [(root, object_literal [])].

Definition heap_nested : heap :=
  heap_with [(root, object_literal [("a", VObject inner)]);
             (inner, object_literal [])].

(** [{ "a.b[0]": 1 }] and [{ "first.name": "Alice" }] *)
Definition heap_bracket_key : heap :=
  heap_with [(root, object_literal [("a.b[0]", VNumber 1)])].

Definition heap_dotted_key : heap :=
  heap_with [(root, object_literal [("first.name", VString "Alice")])].

(** [{ a: v }], for an intermediate value [v]. *)
Definition heap_a (v : value) : heap :=
  heap_with [(root, object_literal [("a", v)])].

(** [{ a: { b: { c: 42 } } }] *)
Definition heap_deep : heap :=
  heap_with [(root, object_literal [("a", VObject inner)]);
             (inner, object_literal [("b", VObject 102%positive)]);
             (102%positive, object_literal [("c", VNumber 42)])].

(** [{ users: [{ name: "Alice" }, {}] }] *)
Definition heap_users : heap :=
  heap_with [(root, object_literal [("users", VObject inner)]);
             (inner, array_literal [VObject 102%positive;
                                    VObject 103%positive]);
             (102%positive, object_literal [("name", VString "Alice")]);
             (103%positive, object_literal [])].

(** [{ matrix: [[1, 2], [3, 4]] }] *)
Definition heap_matrix : heap :=
  heap_with [(root, object_literal [("matrix", VObject inner)]);
             (inner, array_literal [VObject 102%positive;
                                    VObject 103%positive]);
             (102%positive, array_literal [VNumber 1; VNumber 2]);
             (103%positive, array_literal [VNumber 3; VNumber 4])].

(** [{ "a.b": { c: 42 } }] *)
Definition heap_dotted_nested : heap :=
  heap_with [(root, object_literal [("a.b", VObject inner)]);
             (inner, object_literal [("c", VNumber 42)])].

(** The value a call on the root object resolves to. *)
Definition resolved (h : heap) (path : string) (defaultVal : value)
  : outcome value :=
  fst (fallbackValue (VObject root) (PathString path) defaultVal h).

End Scenario.

(** ** Written paths and stored chains *)

Module Paths.
Import JS Tokenizer Traverser Scenario.

(** One step of a written path: a key, written after a dot with its own
    dots escaped, or an index, written between brackets. *)
Inductive step : Set :=
| Key (k : string)
| Index (s : string).

(** The segment a step stands for. *)
Definition label (st : step) : string :=
  match st with
  | Key k => k
  | Index s => s
  end.

Definition render_step (st : step) : string :=
  match st with
  | Key k => String "." (escape_dots k)
  | Index s => String "[" (s ++ "]")
  end.

(** The steps written one after the other, as in [.users[0].name]. *)
Fixpoint render (steps : list step) : string :=
  match steps with
  | [] => ""
  | st :: rest => render_step st ++ render rest
  end.

(** The same path without the dot that begins it, as in [users[0].name]. *)
Definition path_of (steps : list step) : string :=
  match render steps with
  | String "." p => p
  | p => p
  end.

Fixpoint last_char (s : string) : option ascii :=
  match s with
  | "" => None
  | String c "" => Some c
  | String _ s' => last_char s'
  end.

(** The steps that can be written: a key is not empty, has no ["["] and
    does not end with a backslash; an index is not empty and has no
    ["]"]. *)
Definition writable (st : step) : Prop :=
  match st with
  | Key k => k <> "" /\ ~ has_char "[" k /\ last_char k <> Some "\"%char
  | Index s => s <> "" /\ ~ has_char "]" s
  end.

(** [reaches h v segments c]: following [segments] from [v], each as an own
    property of the object reached so far, ends on [c]. *)
Inductive reaches (h : heap) : value -> list string -> value -> Prop :=
| reaches_here v : reaches h v [] v
| reaches_step l segment v rest c :
    obj_props (deref h l) !! segment = Some v ->
    reaches h v rest c ->
    reaches h (VObject l) (segment :: rest) c.

(** Sum of the lengths of the segments. *)
Definition total_length (segments : list string) : nat :=
  foldr (fun s n => String.length s + n) 0 segments.

(** The same objects with other prototype links and callable flags. *)
Definition relink (f : loc -> object -> object) (h : heap) : heap :=
  map_imap (fun l o => Some (Obj (obj_callable (f l o)) (obj_proto (f l o))
                               (obj_props o))) h.

End Paths.

(** ** Objects with accessor properties *)

Module Accessors.
Import JS Tokenizer Traverser.

(** What one run of a getter does: the property assignments it performs,
    in order, then the value it returns or the exception it throws. *)
Inductive effect : Set :=
| Assign (l : loc) (key : string) (v : value).

Record getter : Type := Getter {
  getter_effects : list effect;
  getter_result : outcome value
}.

(** An own property: a stored value, or an accessor with its getter. *)
Inductive property : Type :=
| Data (v : value)
| Accessor (g : getter).

(** An ordinary object.  Proxies are left out. *)
Record object : Type := Obj {
  obj_callable : bool;
  obj_proto : option loc;
  obj_props : gmap string property
}.

Abbreviation heap := (gmap loc object).

Definition empty_object : object := Obj false None ∅.

Definition deref (h : heap) (l : loc) : object :=
  default empty_object (h !! l).

(** The objects of the data fragment, seen as objects of this one. *)
Definition lift_object (o : JS.object) : object :=
  Obj (JS.obj_callable o) (JS.obj_proto o) (Data <$> JS.obj_props o).

Definition lift (h : gmap loc JS.object) : heap := lift_object <$> h.

(** Every property of every object is a data property. *)
Definition data_only (h : heap) : Prop :=
  forall l o key p,
    h !! l = Some o -> obj_props o !! key = Some p -> exists v, p = Data v.

(** [typeof v] *)
Definition typeof (h : heap) (v : value) : string :=
  match v with
  | VObject l => if obj_callable (deref h l) then "function" else "object"
  | _ => JS.typeof ∅ v
  end.

(** [current == null ||
     (typeof current !== "object" && typeof current !== "function")] *)
Definition not_traversable (h : heap) (current : value) : bool :=
  loose_eq_null current
  || (negb (String.eqb (typeof h current) "object")
      && negb (String.eqb (typeof h current) "function")).

(** The object a property access works on; the wrapper of a primitive has
    data properties only. *)
Definition to_object (h : heap) (v : value) : outcome object :=
  match v with
  | VObject l => Normal (deref h l)
  | _ =>
      match JS.to_object ∅ v with
      | Normal o => Normal (lift_object o)
      | Throw e => Throw e
      end
  end.

(** [Object.prototype.hasOwnProperty.call(v, key)]: on an ordinary object it
    runs no code of the object. *)
Definition hasOwnProperty (h : heap) (v : value) (key : string)
  : outcome bool :=
  match to_object h v with
  | Normal o => Normal (bool_decide (is_Some (obj_props o !! key)))
  | Throw e => Throw e
  end.

(** The property found along the prototype chain, at most [fuel] links
    deep. *)
Fixpoint find_property (fuel : nat) (h : heap) (o : object) (key : string)
  : option property :=
  match obj_props o !! key with
  | Some p => Some p
  | None =>
      match fuel, obj_proto o with
      | S fuel', Some p => find_property fuel' h (deref h p) key
      | _, _ => None
      end
  end.

(** [obj.key = v] on the object at [l]. *)
Definition apply_effect (h : heap) (e : effect) : heap :=
  match e with
  | Assign l key v =>
      <[l := Obj (obj_callable (deref h l)) (obj_proto (deref h l))
               (<[key := Data v]> (obj_props (deref h l)))]> h
  end.

(** Computations that run against the heap and may throw. *)
Definition M (A : Type) : Type := heap -> outcome A * heap.

Definition ret {A} (a : A) : M A := fun h => (Normal a, h).

Definition bind {A B} (m : M A) (f : A -> M B) : M B :=
  fun h =>
    match m h with
    | (Normal a, h') => f a h'
    | (Throw e, h') => (Throw e, h')
    end.

(** An operation that only reads the heap. *)
Definition reading {A} (f : heap -> outcome A) : M A := fun h => (f h, h).

(** The heap after a getter has run. *)
Definition after (g : getter) (h : heap) : heap :=
  foldl apply_effect h (getter_effects g).

(** Running a getter: its assignments happen, then it returns or throws. *)
Definition run_getter (g : getter) : M value :=
  fun h => (getter_result g, after g h).

(** [v[key]]: a data property is read, a getter is run. *)
Definition get (v : value) (key : string) : M value :=
  fun h =>
    match to_object h v with
    | Normal o =>
        match find_property (size h) h o key with
        | Some (Data x) => (Normal x, h)
        | Some (Accessor g) => run_getter g h
        | None => (Normal VUndefined, h)
        end
    | Throw e => (Throw e, h)
    end.

(** [hasOwnProperty.call(current, segment) ? current[segment] : SENTINEL] *)
Definition own_or_sentinel (current : value) (segment : string) : M slot :=
  bind (reading (fun h => hasOwnProperty h current segment)) (fun has =>
  if has : bool then bind (get current segment) (fun v => ret (Stored v))
  else ret SENTINEL).

(** [for (const segment of segments) { ... }] *)
Fixpoint for_segments (segments : list string) (current defaultVal : value)
  : M completion :=
  match segments with
  | [] => ret (Finished current)
  | segment :: rest =>
      if UNSAFE_KEYS_has segment then ret (Returned defaultVal) else
      bind (reading (fun h => Normal (not_traversable h current)))
        (fun stop =>
      if stop : bool then ret (Returned defaultVal) else
      bind (own_or_sentinel current segment) (fun next =>
      match next with
      | SENTINEL => ret (Returned defaultVal)
      | Stored v => for_segments rest v defaultVal
      end))
  end.

(** The body of [fallbackValue(val, path, defaultVal)], over objects that
    may carry accessors. *)
Definition fallbackValue (val : value) (path : path_arg) (defaultVal : value)
  : M value :=
  match path_given path with
  | Some p =>
      bind (for_segments (tokenize p) val defaultVal) (fun c =>
      match c with
      | Returned r => ret r
      | Finished current =>
          ret (if is_undefined current then defaultVal else current)
      end)
  | None => ret (if loose_eq_null val then defaultVal else val)
  end.

(** A call with the third argument as the caller wrote it. *)
Definition call_fallbackValue (val : value) (path : path_arg) (arg : value)
  : M value :=
  fallbackValue val path (if is_undefined arg then VNull else arg).

(** [reaches h v segments c]: following [segments] from [v], each as an own
    data property of the object reached so far, ends on [c]. *)
Inductive reaches (h : heap) : value -> list string -> value -> Prop :=
| reaches_here v : reaches h v [] v
| reaches_step l segment v rest c :
    obj_props (deref h l) !! segment = Some (Data v) ->
    reaches h v rest c ->
    reaches h (VObject l) (segment :: rest) c.

(** *** Objects with getters, for the examples *)

Definition root : loc := 100%positive.
Definition inner : loc := 101%positive.

(** [{ get boom() { throw new TypeError() } }] *)
Definition heap_throwing_getter : heap :=
  <[root := Obj false (Some loc_ObjectPrototype)
              {["boom" := Accessor (Getter [] (Throw TypeError))]}]>
    (lift Scenario.builtins).

(** [{ get a() { this.count = 1; return 1 } }] *)
Definition heap_counting_getter : heap :=
  <[root := Obj false (Some loc_ObjectPrototype)
              {["a" := Accessor
                         (Getter [Assign root "count" (VNumber 1)]
                            (Normal (VNumber 1)))]}]>
    (lift Scenario.builtins).

(** [{ get a() { Object.prototype.polluted = true; return {} } }] *)
Definition heap_polluting_getter : heap :=
  <[root := Obj false (Some loc_ObjectPrototype)
              {["a" := Accessor
                         (Getter [Assign loc_ObjectPrototype "polluted"
                                    (VBoolean true)]
                            (Normal (VObject inner)))]}]>
    (<[inner := Obj false (Some loc_ObjectPrototype) ∅]>
       (lift Scenario.builtins)).

End Accessors.

(** ** Facts about the tokenizer *)

Module TokenizerFacts.
Import Tokenizer Scenario.

(** *** Unfolding equations of the two loops *)

Lemma read_bracket_eq path i current :
  read_bracket path i current =
  match String.get i path with
  | None => (i, current)
  | Some ch =>
      if Ascii.eqb ch "]" then (i, current)
      else read_bracket path (i + 1) (add_char current ch)
  end.
Proof.
  rewrite read_bracket_equation_1. unfold inspect.
  enough (forall o (e : String.get i path = o),
    read_bracket_unfold_clause_1 path i (exist _ o e) current =
    match o with
    | None => (i, current)
    | Some ch =>
        if Ascii.eqb ch "]" then (i, current)
        else read_bracket path (i + 1) (add_char current ch)
    end) as Hgen by apply Hgen.
  intros [ch|] e; reflexivity.
Qed.

Lemma tokenize_loop_eq path i current segments :
  tokenize_loop path i current segments =
  match String.get i path with
  | None => push segments current
  | Some ch =>
      if Ascii.eqb ch "\" && is_char (String.get (i + 1) path) "." then
        tokenize_loop path (i + 2) (current ++ ".") segments
      else if Ascii.eqb ch "." then
        tokenize_loop path (i + 1) "" (push segments current)
      else if Ascii.eqb ch "[" then
        tokenize_loop path
          (skip_dot path (fst (read_bracket path (i + 1) "") + 1)) ""
          (push (push segments current)
                (snd (read_bracket path (i + 1) "")))
      else
        tokenize_loop path (i + 1) (add_char current ch) segments
  end.
Proof.
  rewrite tokenize_loop_equation_1. unfold inspect.
  enough (forall o (e : String.get i path = o),
    tokenize_loop_unfold_clause_1 path i (exist _ o e) current segments =
    match o with
    | None => push segments current
    | Some ch =>
        if Ascii.eqb ch "\" && is_char (String.get (i + 1) path) "." then
          tokenize_loop path (i + 2) (current ++ ".") segments
        else if Ascii.eqb ch "." then
          tokenize_loop path (i + 1) "" (push segments current)
        else if Ascii.eqb ch "[" then
          tokenize_loop path
            (skip_dot path (fst (read_bracket path (i + 1) "") + 1)) ""
            (push (push segments current)
                  (snd (read_bracket path (i + 1) "")))
        else
          tokenize_loop path (i + 1) (add_char current ch) segments
    end) as Hgen by apply Hgen.
  intros [ch|] e; reflexivity.
Qed.

(** *** Strings read by index *)

Lemma app_cons (c : ascii) (s t : string) :
  String c s ++ t = String c (s ++ t).
Proof. reflexivity. Qed.

Lemma app_empty_r (s : string) : s ++ "" = s.
Proof. induction s as [|c s IH]; [reflexivity|]. rewrite app_cons, IH. reflexivity. Qed.

Lemma app_assoc (s t u : string) : (s ++ t) ++ u = s ++ t ++ u.
Proof.
  induction s as [|c s IH]; [reflexivity|].
  rewrite !app_cons, IH. reflexivity.
Qed.

Lemma length_app (s t : string) :
  String.length (s ++ t) = String.length s + String.length t.
Proof.
  induction s as [|c s IH]; [reflexivity|].
  rewrite app_cons. simpl. rewrite IH. reflexivity.
Qed.

(** Reading [pre ++ s] at offset [n] past [pre] reads [s] at [n]. *)
Lemma get_app_r (pre s : string) (n : nat) :
  String.get (String.length pre + n) (pre ++ s) = String.get n s.
Proof.
  induction pre as [|c pre IH]; [reflexivity|].
  rewrite app_cons. simpl. exact IH.
Qed.

Lemma get_app_here (pre s : string) :
  String.get (String.length pre) (pre ++ s) = String.get 0 s.
Proof. rewrite <- (get_app_r pre s 0). f_equal. lia. Qed.

Lemma get_app_next (pre s : string) :
  String.get (String.length pre + 1) (pre ++ s) = String.get 1 s.
Proof. apply get_app_r. Qed.

(** [path[i]] is a character exactly when [i < path.length]. *)
Lemma get_is_Some path i :
  is_Some (String.get i path) <-> i < String.length path.
Proof.
  revert i; induction path as [|a p IH]; intros [|i]; simpl.
  - split; [intros [c Hc]; discriminate|lia].
  - split; [intros [c Hc]; discriminate|lia].
  - split; [lia|eauto].
  - rewrite IH. lia.
Qed.

Lemma is_char_true c a : is_char c a = true <-> c = Some a.
Proof. unfold is_char. apply bool_decide_eq_true. Qed.

Lemma is_char_false c a : is_char c a = false <-> c <> Some a.
Proof. unfold is_char. apply bool_decide_eq_false. Qed.

Lemma push_empty segments : push segments "" = segments.
Proof. reflexivity. Qed.

Lemma push_nonempty segments current :
  current <> "" -> push segments current = (segments ++ [current])%list.
Proof. intros H. unfold push. destruct (decide (current = "")); congruence. Qed.

(** *** One iteration of the main loop, case by case *)

Lemma loop_end path i current segments :
  String.get i path = None ->
  tokenize_loop path i current segments = push segments current.
Proof. intros H. rewrite tokenize_loop_eq, H. reflexivity. Qed.

Lemma loop_escaped_dot path i current segments :
  String.get i path = Some "\"%char ->
  String.get (i + 1) path = Some "."%char ->
  tokenize_loop path i current segments =
  tokenize_loop path (i + 2) (current ++ ".") segments.
Proof.
  intros H1 H2. rewrite tokenize_loop_eq, H1, H2. reflexivity.
Qed.

Lemma loop_backslash path i current segments :
  String.get i path = Some "\"%char ->
  String.get (i + 1) path <> Some "."%char ->
  tokenize_loop path i current segments =
  tokenize_loop path (i + 1) (add_char current "\") segments.
Proof.
  intros H1 H2. rewrite tokenize_loop_eq, H1.
  apply is_char_false in H2. rewrite H2. reflexivity.
Qed.

Lemma loop_dot path i current segments :
  String.get i path = Some "."%char ->
  tokenize_loop path i current segments =
  tokenize_loop path (i + 1) "" (push segments current).
Proof. intros H. rewrite tokenize_loop_eq, H. reflexivity. Qed.

Lemma loop_bracket path i current segments :
  String.get i path = Some "["%char ->
  tokenize_loop path i current segments =
  tokenize_loop path
    (skip_dot path (fst (read_bracket path (i + 1) "") + 1)) ""
    (push (push segments current) (snd (read_bracket path (i + 1) ""))).
Proof. intros H. rewrite tokenize_loop_eq, H. reflexivity. Qed.

Lemma loop_plain path i ch current segments :
  String.get i path = Some ch ->
  ch <> "\"%char -> ch <> "."%char -> ch <> "["%char ->
  tokenize_loop path i current segments =
  tokenize_loop path (i + 1) (add_char current ch) segments.
Proof.
  intros H Hb Hd Hk. rewrite tokenize_loop_eq, H.
  apply Ascii.eqb_neq in Hb, Hd, Hk. rewrite Hb, Hd, Hk. reflexivity.
Qed.

(** The inner loop copies everything before the next ["]"] and stops on
    it. *)
Lemma read_bracket_content pre content rest current :
  ~ In "]"%char (list_ascii_of_string content) ->
  read_bracket (pre ++ content ++ String "]" rest) (String.length pre) current
  = (String.length pre + String.length content, current ++ content).
Proof.
  revert pre current.
  induction content as [|c content IH]; intros pre current Hnot.
  - rewrite read_bracket_eq, get_app_here. simpl.
    rewrite app_empty_r. f_equal. lia.
  - rewrite read_bracket_eq, get_app_here. simpl.
    assert (Hc : Ascii.eqb c "]" = false).
    { apply Ascii.eqb_neq. intros ->. apply Hnot. simpl. auto. }
    rewrite Hc.
    replace (pre ++ String c content ++ String "]" rest)
      with ((pre ++ String c "") ++ content ++ String "]" rest)
      by (rewrite app_assoc; reflexivity).
    replace (String.length pre + 1) with (String.length (pre ++ String c ""))
      by (rewrite length_app; reflexivity).
    rewrite IH by (intros Hin; apply Hnot; simpl; auto).
    rewrite length_app. unfold add_char. rewrite app_assoc. simpl.
    f_equal. lia.
Qed.

(** An escaped key never begins with an unescaped dot. *)
Lemma escape_dots_head k : String.get 0 (escape_dots k) <> Some "."%char.
Proof.
  destruct k as [|c k]; [discriminate|]. simpl.
  destruct (Ascii.eqb c ".") eqn:E; simpl; [discriminate|].
  apply Ascii.eqb_neq in E. congruence.
Qed.

(** Scanning the escaped form of a key without ["["] appends the key to the
    accumulator and ends the scan. *)
Lemma loop_escape_dots k : forall pre current segments,
  ~ has_char "[" k ->
  tokenize_loop (pre ++ escape_dots k) (String.length pre) current segments
  = push segments (current ++ k).
Proof.
  unfold has_char.
  induction k as [|c k IH]; intros pre current segments Hk.
  - simpl. rewrite loop_end, app_empty_r; [reflexivity|].
    rewrite get_app_here. reflexivity.
  - assert (Hk' : ~ In "["%char (list_ascii_of_string k))
      by (intros Hin; apply Hk; simpl; auto).
    assert (Hc : c <> "["%char) by (intros ->; apply Hk; simpl; auto).
    simpl. destruct (Ascii.eqb c ".") eqn:Edot.
    + apply Ascii.eqb_eq in Edot as ->.
      rewrite loop_escaped_dot; cycle 1.
      { rewrite get_app_here. reflexivity. }
      { rewrite get_app_next. reflexivity. }
      replace (pre ++ String "\" (String "." (escape_dots k)))
        with ((pre ++ "\.") ++ escape_dots k)
        by (rewrite app_assoc; reflexivity).
      replace (String.length pre + 2) with (String.length (pre ++ "\."))
        by (rewrite length_app; reflexivity).
      rewrite IH by exact Hk'. rewrite app_assoc. reflexivity.
    + apply Ascii.eqb_neq in Edot.
      assert (Hstep : tokenize_loop (pre ++ String c (escape_dots k))
                        (String.length pre) current segments =
                      tokenize_loop (pre ++ String c (escape_dots k))
                        (String.length pre + 1) (add_char current c) segments).
      { destruct (decide (c = "\"%char)) as [->|Hb].
        - apply loop_backslash.
          + rewrite get_app_here. reflexivity.
          + rewrite get_app_next. simpl. apply escape_dots_head.
        - apply loop_plain; auto. rewrite get_app_here. reflexivity. }
      rewrite Hstep.
      replace (pre ++ String c (escape_dots k))
        with ((pre ++ String c "") ++ escape_dots k)
        by (rewrite app_assoc; reflexivity).
      replace (String.length pre + 1)
        with (String.length (pre ++ String c ""))
        by (rewrite length_app; reflexivity).
      rewrite IH by exact Hk'. unfold add_char. rewrite app_assoc.
      reflexivity.
Qed.

(** The escaped form of a non-empty key without ["["] is one segment: the
    key. *)
Lemma tokenize_escape_dots k :
  k <> "" -> ~ has_char "[" k -> tokenize (escape_dots k) = [k].
Proof.
  intros Hne Hk. unfold tokenize.
  change (tokenize_loop ("" ++ escape_dots k) (String.length "") "" []
          = [k]).
  rewrite (loop_escape_dots k "" "" [] Hk).
  apply (push_nonempty [] k Hne).
Qed.

End TokenizerFacts.

(** ** Facts about the traverser *)

Module TraverserFacts.
Import JS Tokenizer Traverser.
Local Open Scope js_scope.

Lemma not_traversable_false h c :
  not_traversable h c = false -> exists l, c = VObject l.
Proof. destruct c; try discriminate; eauto. Qed.

Lemma not_traversable_object h l : not_traversable h (VObject l) = false.
Proof.
  unfold not_traversable, typeof. destruct (obj_callable (deref h l));
    reflexivity.
Qed.

(** An own property is found without following the prototype link,
    whatever the fuel. *)
Lemma get_from_own fuel h o key v :
  obj_props o !! key = Some v -> get_from fuel h o key = v.
Proof. intros H. destruct fuel; simpl; rewrite H; reflexivity. Qed.

Lemma own_or_sentinel_object h l segment :
  own_or_sentinel (VObject l) segment h =
  (Normal (match obj_props (deref h l) !! segment with
           | Some v => Stored v
           | None => SENTINEL
           end), h).
Proof.
  unfold own_or_sentinel, bind, reading, ret, hasOwnProperty, get. simpl.
  destruct (obj_props (deref h l) !! segment) as [v|] eqn:E.
  - rewrite bool_decide_eq_true_2 by eauto.
    rewrite (get_from_own _ _ _ _ _ E). reflexivity.
  - rewrite bool_decide_eq_false_2; [reflexivity|].
    intros [v Hv]. discriminate.
Qed.

(** One iteration of the [for] loop. *)
Lemma for_segments_step h segment rest current defaultVal :
  for_segments (segment :: rest) current defaultVal h =
  if UNSAFE_KEYS_has segment then (Normal (Returned defaultVal), h)
  else if not_traversable h current then (Normal (Returned defaultVal), h)
  else match current with
       | VObject l =>
           match obj_props (deref h l) !! segment with
           | Some v => for_segments rest v defaultVal h
           | None => (Normal (Returned defaultVal), h)
           end
       | _ => (Normal (Returned defaultVal), h)
       end.
Proof.
  cbn [for_segments].
  destruct (UNSAFE_KEYS_has segment); [reflexivity|].
  unfold bind at 1. unfold reading at 1.
  destruct (not_traversable h current) eqn:Hstop; [reflexivity|].
  destruct (not_traversable_false _ _ Hstop) as [l ->].
  unfold bind. rewrite own_or_sentinel_object.
  destruct (obj_props (deref h l) !! segment); reflexivity.
Qed.

(** Case analysis along one iteration of the loop, on the reserved-key
    test, the traversability test and the own-property test.  [tac] closes
    the branches in which the loop returns; the branch that goes on to the
    next segment is left. *)
Ltac loop_step h current segment tac :=
  rewrite ?for_segments_step;
  destruct (UNSAFE_KEYS_has segment) eqn:?; [solve [tac]|];
  destruct (not_traversable h current) eqn:?; [solve [tac]|];
  destruct current as [| | | | | | |?l]; try solve [tac];
  destruct (obj_props (deref h l) !! segment) eqn:?; [|solve [tac]].

(** The loop always ends normally and leaves the heap as it found it. *)
Lemma for_segments_total segments : forall h current defaultVal,
  exists c, for_segments segments current defaultVal h = (Normal c, h).
Proof.
  induction segments as [|segment rest IH]; intros h current defaultVal.
  - eexists; reflexivity.
  - loop_step h current segment eauto. apply IH.
Qed.

(** Every [return] inside the loop returns [defaultVal]. *)
Lemma for_segments_returned segments : forall h h' current defaultVal r,
  for_segments segments current defaultVal h = (Normal (Returned r), h') ->
  r = defaultVal.
Proof.
  induction segments as [|segment rest IH]; intros h h' current defaultVal r.
  - discriminate.
  - loop_step h current segment congruence. apply IH.
Qed.

(** Running the loop over [pre ++ post] is running it over [pre] and, when
    that did not return, over [post] from where it stands. *)
Lemma for_segments_app pre post : forall h current defaultVal,
  for_segments (pre ++ post) current defaultVal h =
  match for_segments pre current defaultVal h with
  | (Normal (Finished c), h') => for_segments post c defaultVal h'
  | r => r
  end.
Proof.
  induction pre as [|segment pre IH]; intros h current defaultVal.
  - reflexivity.
  - rewrite <- app_comm_cons.
    loop_step h current segment ltac:(reflexivity). apply IH.
Qed.

(** A reserved key anywhere in the segments makes the loop return
    [defaultVal]. *)
Lemma for_segments_unsafe segments : forall h current defaultVal segment,
  segment ∈ segments -> UNSAFE_KEYS_has segment = true ->
  for_segments segments current defaultVal h =
  (Normal (Returned defaultVal), h).
Proof.
  induction segments as [|s rest IH]; intros h current defaultVal segment Hin Hu.
  - inversion Hin.
  - loop_step h current s ltac:(reflexivity).
    apply IH with segment; [|exact Hu].
    apply elem_of_cons in Hin as [->|Hin]; [congruence|exact Hin].
Qed.

(** The result of [fallbackValue] in terms of the way the loop ends. *)
Lemma fallbackValue_path val p defaultVal h :
  fallbackValue val (PathString p) defaultVal h =
  match for_segments (tokenize p) val defaultVal h with
  | (Normal (Returned r), h') => (Normal r, h')
  | (Normal (Finished current), h') =>
      (Normal (if is_undefined current then defaultVal else current), h')
  | (Throw e, h') => (Throw e, h')
  end.
Proof.
  unfold fallbackValue, bind. simpl.
  destruct (for_segments (tokenize p) val defaultVal h) as [[[r|c]|e] h'];
    reflexivity.
Qed.

(** The unsafe keys are exactly the three reserved names. *)
Lemma UNSAFE_KEYS_has_spec segment :
  UNSAFE_KEYS_has segment = true <->
  segment = "__proto__" \/ segment = "prototype" \/ segment = "constructor".
Proof.
  unfold UNSAFE_KEYS_has, UNSAFE_KEYS.
  rewrite bool_decide_eq_true, elem_of_list_to_set.
  rewrite !elem_of_cons, elem_of_nil. tauto.
Qed.

(** The values that stop the traversal are those that are not objects:
    [null], [undefined] and the other primitives. *)
Lemma not_traversable_spec h current :
  not_traversable h current = true <-> forall l, current <> VObject l.
Proof.
  split.
  - intros H l ->. rewrite not_traversable_object in H. discriminate.
  - intros H. destruct (not_traversable h current) eqn:E; [reflexivity|].
    destruct (not_traversable_false _ _ E) as [l ->]. destruct (H l eq_refl).
Qed.

(** *** Own properties of arrays *)

(** The decimal spelling of a number does not begin with the letter l. *)
Lemma pretty_N_go_not_l x : forall s,
  (forall s', s <> String "l" s') ->
  forall s', pretty_N_go x s <> String "l" s'.
Proof.
  induction (N.lt_wf_0 x) as [x _ IH]. intros s Hs s'.
  destruct (decide (x = 0%N)) as [->|Hx].
  - rewrite pretty_N_go_0. apply Hs.
  - rewrite pretty_N_go_step by lia. apply IH.
    + apply N.div_lt; lia.
    + intros t. unfold pretty_N_char.
      repeat case_match; discriminate.
Qed.

Lemma pretty_nat_not_length (n : nat) : pretty n <> "length".
Proof.
  unfold pretty, pretty_nat, pretty, pretty_N.
  destruct (decide (N.of_nat n = 0%N)); [discriminate|].
  apply pretty_N_go_not_l. discriminate.
Qed.

(** An array has no own property under an index at or beyond its length. *)
Lemma indexed_props_out_of_range (elems : list value) (n : nat) :
  length elems <= n -> indexed_props elems !! pretty n = None.
Proof.
  intros Hn. unfold indexed_props.
  rewrite lookup_insert_ne by (intros E; symmetry in E;
                               exact (pretty_nat_not_length n E)).
  apply not_elem_of_list_to_map_1. intros Hin.
  apply list_elem_of_fmap in Hin as [[k v] [Hk Hkv]]. simpl in Hk. subst k.
  apply elem_of_lookup_imap in Hkv as (i & x & Heq & Hix).
  injection Heq as Hpretty _. apply (inj pretty) in Hpretty. subst i.
  apply lookup_lt_Some in Hix. lia.
Qed.

(** Within its length, an array owns each index and stores its element
    there. *)
Lemma indexed_props_in_range (elems : list value) (n : nat) (v : value) :
  elems !! n = Some v -> indexed_props elems !! pretty n = Some v.
Proof.
  intros Hn. unfold indexed_props.
  rewrite lookup_insert_ne by (intros E; symmetry in E;
                               exact (pretty_nat_not_length n E)).
  apply elem_of_list_to_map_1.
  - rewrite fmap_imap. unfold compose. simpl.
    apply NoDup_alt. intros i j k Hi Hj.
    rewrite list_lookup_imap in Hi, Hj.
    destruct (elems !! i) eqn:Ei; [|discriminate].
    destruct (elems !! j) eqn:Ej; [|discriminate].
    simpl in Hi, Hj. injection Hi as <-. injection Hj as Hj.
    exact (eq_sym (inj pretty _ _ Hj)).
  - apply elem_of_lookup_imap. eauto.
Qed.

(** A call that leaves out the fallback, or passes [undefined] for it, runs
    the body with [null]. *)
Lemma call_fallbackValue_default val path h :
  call_fallbackValue val path VUndefined h = fallbackValue val path VNull h.
Proof. reflexivity. Qed.

Lemma call_fallbackValue_given val path arg h :
  arg <> VUndefined ->
  call_fallbackValue val path arg h = fallbackValue val path arg h.
Proof. intros H. destruct arg; try reflexivity. congruence. Qed.

End TraverserFacts.

(** ** Properties of the traverser *)

Module TraverserClaims.
Import JS Tokenizer Traverser Scenario TokenizerFacts TraverserFacts.

(** C3.  When the loop has consumed every segment and stands on [current],
    the result is the fallback if [current] is [undefined] and [current]
    itself otherwise; a stored [null] is returned as it is.  Resolving
    [value] against [{ value: null }] gives [null], against
    [{ value: undefined }] the fallback. *)
Theorem final_undefined_only val p defaultVal h h' current :
  for_segments (tokenize p) val defaultVal h = (Normal (Finished current), h') ->
  (current = VUndefined ->
   fallbackValue val (PathString p) defaultVal h = (Normal defaultVal, h'))
  /\ (current <> VUndefined ->
      fallbackValue val (PathString p) defaultVal h = (Normal current, h'))
  /\ fallbackValue (VObject root) (PathString "value") (VString "D")
       heap_value_null = (Normal VNull, heap_value_null)
  /\ fallbackValue (VObject root) (PathString "value") (VString "D")
       heap_value_undefined = (Normal (VString "D"), heap_value_undefined).
Proof.
  intros Hloop. repeat split.
  - intros ->. rewrite fallbackValue_path, Hloop. reflexivity.
  - intros Hc. rewrite fallbackValue_path, Hloop.
    destruct current; try reflexivity. congruence.
Qed.

Lemma final_undefined_only_witness :
  for_segments (tokenize "value") (VObject root) (VString "D") heap_value_null
  = (Normal (Finished VNull), heap_value_null) /\
  fallbackValue (VObject root) (PathString "value") (VString "D")
    heap_value_null = (Normal VNull, heap_value_null).
Proof.
  assert (Hloop : for_segments (tokenize "value") (VObject root) (VString "D")
                    heap_value_null
                  = (Normal (Finished VNull), heap_value_null))
    by reflexivity.
  split; [exact Hloop|].
  refine (proj1 (proj2 (final_undefined_only _ _ _ _ _ _ Hloop)) _).
  discriminate.
Defined.

(** C4.  Without a path ([undefined] or [null] as the path argument) the
    result is [val] itself unless [val] is [null] or [undefined], and the
    fallback in those two cases; the falsy values [0], [false] and the empty
    string are returned, not replaced. *)
Theorem no_path_coalesces val defaultVal h :
  fallbackValue val PathUndefined defaultVal h =
    (Normal (match val with
             | VNull | VUndefined => defaultVal
             | _ => val
             end), h)
  /\ fallbackValue val PathNull defaultVal h =
       (Normal (match val with
                | VNull | VUndefined => defaultVal
                | _ => val
                end), h)
  /\ fallbackValue VNull PathNull (VString "D") h = (Normal (VString "D"), h)
  /\ fallbackValue (VNumber 0) PathNull (VNumber 99) h = (Normal (VNumber 0), h)
  /\ fallbackValue (VBoolean false) PathNull (VBoolean true) h
     = (Normal (VBoolean false), h)
  /\ fallbackValue (VString "") PathNull (VString "fallback") h
     = (Normal (VString ""), h).
Proof. repeat split; destruct val; reflexivity. Qed.

(** C5 as stated fails on a key that contains ["["]: the escaped path of
    the key [a.b[0]] has the two segments [a.b] and [0], and resolving it
    against [{ "a.b[0]": 1 }] gives the fallback. *)
Lemma escaped_key_with_bracket :
  has_char "." "a.b[0]" /\
  tokenize (escape_dots "a.b[0]") = ["a.b"; "0"] /\
  fallbackValue (VObject root) (PathString (escape_dots "a.b[0]"))
    (VString "D") heap_bracket_key = (Normal (VString "D"), heap_bracket_key)
  /\ fst (fallbackValue (VObject root) (PathString (escape_dots "a.b[0]"))
            (VString "D") heap_bracket_key) <> Normal (VNumber 1).
Proof.
  split; [unfold has_char; simpl; tauto|].
  split; [reflexivity|]. split; [reflexivity|].
  vm_compute. discriminate.
Qed.

(** A key with a dot in it is none of the reserved keys. *)
Lemma dotted_key_safe k : has_char "." k -> UNSAFE_KEYS_has k = false.
Proof.
  intros Hdot. destruct (UNSAFE_KEYS_has k) eqn:E; [|reflexivity].
  apply UNSAFE_KEYS_has_spec in E as [ -> | [ -> | -> ] ];
    unfold has_char in Hdot; simpl in Hdot;
    repeat (destruct Hdot as [Hdot|Hdot]; [discriminate Hdot|]);
    destruct Hdot.
Qed.

(** C5, as amended.  For every key [k] that contains a dot and no ["["], and
    every value [v] other than [undefined], resolving the path that escapes
    every dot of [k] against [{ k: v }] gives [v], whatever the fallback. *)
Theorem escaped_key_roundtrip k v defaultVal h l :
  has_char "." k -> ~ has_char "[" k -> v <> VUndefined ->
  h !! l = Some (object_literal [(k, v)]) ->
  fallbackValue (VObject l) (PathString (escape_dots k)) defaultVal h
  = (Normal v, h).
Proof.
  intros Hdot Hbr Hv Hl.
  assert (Hne : k <> "") by (intros ->; destruct Hdot).
  rewrite fallbackValue_path, (tokenize_escape_dots k Hne Hbr).
  rewrite for_segments_step, (dotted_key_safe k Hdot).
  rewrite not_traversable_object.
  unfold deref. rewrite Hl. simpl.
  unfold object_literal. cbn [obj_props reverse rev_append].
  change (reverse [(k, v)]) with [(k, v)]. cbn [list_to_map foldr uncurry].
  rewrite lookup_insert_eq. simpl.
  destruct v; try reflexivity. congruence.
Qed.

Lemma escaped_key_roundtrip_witness :
  has_char "." "first.name" /\ ~ has_char "[" "first.name" /\
  fallbackValue (VObject root) (PathString (escape_dots "first.name"))
    (VString "Unknown") heap_dotted_key
  = (Normal (VString "Alice"), heap_dotted_key).
Proof.
  assert (Hdot : has_char "." "first.name")
    by (unfold has_char; simpl; tauto).
  assert (Hbr : ~ has_char "[" "first.name").
  { unfold has_char. simpl.
    intros H. repeat (destruct H as [H|H]; [discriminate H|]). destruct H. }
  split; [exact Hdot|]. split; [exact Hbr|].
  apply (escaped_key_roundtrip "first.name" (VString "Alice")
           (VString "Unknown") heap_dotted_key root Hdot Hbr).
  - discriminate.
  - reflexivity.
Defined.

(** C6 as stated fails on a [null] root: with the empty path the result is
    [null], not the fallback. *)
Lemma empty_path_keeps_null :
  fallbackValue VNull (PathString "") (VString "D") builtins
  = (Normal VNull, builtins)
  /\ fst (fallbackValue VNull (PathString "") (VString "D") builtins)
     <> Normal (VString "D").
Proof. split; [reflexivity|]. vm_compute. discriminate. Qed.

(** C6, as amended.  The empty path has no segments, and resolving it gives
    the root itself unless the root is [undefined], in which case it gives
    the fallback; a [null] root is returned as it is. *)
Theorem empty_path_returns_root val defaultVal h :
  tokenize "" = []
  /\ fallbackValue val (PathString "") defaultVal h =
       (Normal (match val with
                | VUndefined => defaultVal
                | _ => val
                end), h).
Proof. split; [reflexivity|]. destruct val; reflexivity. Qed.

(** C8.  At a step of the traversal, reached with [current] after the
    segments [pre], the result is the fallback when [current] is not an
    object ([null], [undefined] or another primitive) or is an object that
    has no own property named by the segment.  What the prototype chain
    holds plays no part: [toString], which [{}] inherits, resolves to the
    fallback.  An array has no own property at an index at or beyond its
    length, so [items[9]] against [{ items: [1, 2] }] gives the fallback. *)
Theorem failed_step_returns_fallback
  val p defaultVal h pre segment rest current :
  tokenize p = (pre ++ segment :: rest)%list ->
  for_segments pre val defaultVal h = (Normal (Finished current), h) ->
  (forall l, current <> VObject l)
  \/ (exists l, current = VObject l
                /\ obj_props (deref h l) !! segment = None) ->
  fallbackValue val (PathString p) defaultVal h = (Normal defaultVal, h)
  /\ (forall elems n, length elems <= n ->
        obj_props (array_literal elems) !! pretty n = None)
  /\ fallbackValue (VObject root) (PathString "items[9]") (VNumber (-1))
       heap_items = (Normal (VNumber (-1)), heap_items)
  /\ get heap_empty_object (VObject root) "toString"
     = Normal (VObject 20%positive)
  /\ fallbackValue (VObject root) (PathString "toString") (VString "D")
       heap_empty_object = (Normal (VString "D"), heap_empty_object).
Proof.
  intros Htok Hpre Hfail. split; [|repeat split].
  - rewrite fallbackValue_path, Htok, for_segments_app, Hpre.
    rewrite for_segments_step.
    destruct (UNSAFE_KEYS_has segment); [reflexivity|].
    destruct Hfail as [Hprim|(l & -> & Hown)].
    + apply not_traversable_spec with (h := h) in Hprim.
      rewrite Hprim. reflexivity.
    + rewrite not_traversable_object, Hown. reflexivity.
  - intros elems n Hn. apply indexed_props_out_of_range. exact Hn.
Qed.

Lemma failed_step_returns_fallback_witness :
  tokenize "items[9]" = (["items"] ++ "9" :: [])%list /\
  for_segments ["items"] (VObject root) (VNumber (-1)) heap_items
  = (Normal (Finished (VObject inner)), heap_items) /\
  obj_props (deref heap_items inner) !! "9" = None /\
  fallbackValue (VObject root) (PathString "items[9]") (VNumber (-1))
    heap_items = (Normal (VNumber (-1)), heap_items).
Proof.
  assert (Htok : tokenize "items[9]" = (["items"] ++ "9" :: [])%list)
    by reflexivity.
  assert (Hpre : for_segments ["items"] (VObject root) (VNumber (-1))
                   heap_items
                 = (Normal (Finished (VObject inner)), heap_items))
    by reflexivity.
  assert (Hown : obj_props (deref heap_items inner) !! "9" = None)
    by reflexivity.
  split; [exact Htok|]. split; [exact Hpre|]. split; [exact Hown|].
  exact (proj1 (failed_step_returns_fallback (VObject root) "items[9]"
                  (VNumber (-1)) heap_items ["items"] "9" []
                  (VObject inner) Htok Hpre
                  (or_intror (ex_intro _ inner (conj eq_refl Hown))))).
Defined.

End TraverserClaims.

(** ** The repository's own examples, replayed on the model *)

Module Replay.
Import JS Tokenizer Traverser Scenario.

Example tokenize_dots : tokenize "a.b.c" = ["a"; "b"; "c"].
Proof. reflexivity. Qed.

Example tokenize_escaped : tokenize "a\.b.c" = ["a.b"; "c"].
Proof. reflexivity. Qed.

Example tokenize_escaped_index : tokenize "a\.b[0].c" = ["a.b"; "0"; "c"].
Proof. reflexivity. Qed.

Example tokenize_separators_only : tokenize "..." = [].
Proof. reflexivity. Qed.

Example tokenize_dot_inside_brackets : tokenize "a[b.c]" = ["a"; "b.c"].
Proof. reflexivity. Qed.

Example deep_key : resolved heap_deep "a.b.c" (VNumber 0) = Normal (VNumber 42).
Proof. reflexivity. Qed.

Example missing_top_key :
  resolved heap_deep "b" (VString "missing") = Normal (VString "missing").
Proof. reflexivity. Qed.

Example missing_intermediate :
  resolved heap_nested "a.b.c" (VString "nope") = Normal (VString "nope").
Proof. reflexivity. Qed.

Example array_item :
  resolved heap_items "items[1]" (VNumber 0) = Normal (VNumber 2).
Proof. reflexivity. Qed.

Example array_length :
  resolved heap_items "items.length" (VNumber 0) = Normal (VNumber 2).
Proof. reflexivity. Qed.

Example array_item_property :
  resolved heap_users "users[0].name" (VString "Unknown")
  = Normal (VString "Alice").
Proof. reflexivity. Qed.

Example array_item_without_property :
  resolved heap_users "users[1].name" (VString "Unknown")
  = Normal (VString "Unknown").
Proof. reflexivity. Qed.

Example nested_arrays :
  resolved heap_matrix "matrix[0][1]" (VNumber 0) = Normal (VNumber 2)
  /\ resolved heap_matrix "matrix[1][0]" (VNumber 0) = Normal (VNumber 3).
Proof. split; reflexivity. Qed.

Example escaped_dot_key :
  resolved heap_dotted_key "first\.name" (VString "Unknown")
  = Normal (VString "Alice").
Proof. reflexivity. Qed.

Example unescaped_dot_separates :
  resolved heap_dotted_key "first.name" (VString "Unknown")
  = Normal (VString "Unknown").
Proof. reflexivity. Qed.

Example escaped_dot_then_key :
  resolved heap_dotted_nested "a\.b.c" (VNumber 0) = Normal (VNumber 42).
Proof. reflexivity. Qed.

Example blocked_keys :
  resolved heap_empty_object "__proto__.evil" (VString "safe")
  = Normal (VString "safe")
  /\ resolved heap_empty_object "constructor" (VString "safe")
     = Normal (VString "safe")
  /\ resolved heap_empty_object "prototype" (VString "safe")
     = Normal (VString "safe").
Proof. repeat split; reflexivity. Qed.

Example stored_undefined_without_fallback :
  fst (call_fallbackValue (VObject root) (PathString "value") VUndefined
         heap_value_undefined) = Normal VNull.
Proof. reflexivity. Qed.

Example no_arguments_but_the_value :
  fst (call_fallbackValue VNull PathUndefined VUndefined builtins)
  = Normal VNull
  /\ fst (call_fallbackValue VUndefined PathUndefined VUndefined builtins)
     = Normal VNull.
Proof. split; reflexivity. Qed.

Example intermediate_not_traversable :
  resolved (heap_a (VString "not-an-object")) "a.b" (VString "nope")
  = Normal (VString "nope")
  /\ resolved (heap_a (VNumber 42)) "a.b" (VString "nope")
     = Normal (VString "nope")
  /\ resolved (heap_a VNull) "a.b" (VString "nope")
     = Normal (VString "nope")
  /\ resolved (heap_a VUndefined) "a.b" (VString "nope")
     = Normal (VString "nope").
Proof. repeat split; reflexivity. Qed.

(** A string is not traversed, although it has a [length] of its own. *)
Example string_not_traversed :
  hasOwnProperty builtins (VString "abc") "length" = Normal true
  /\ fst (fallbackValue (VString "abc") (PathString "length") (VNumber 0)
            builtins) = Normal (VNumber 0).
Proof. split; reflexivity. Qed.

(** A function is traversed like any other object. *)
Example function_traversed :
  fst (fallbackValue (VObject 20%positive) (PathString "name") (VNumber 0)
         (<[20%positive :=
              Obj true (Some loc_FunctionPrototype)
                {["name" := VString "toString"]}]> builtins))
  = Normal (VString "toString").
Proof. reflexivity. Qed.

End Replay.

(** ** More about the tokenizer *)

Module TokenizerMore.
Import Tokenizer Scenario Paths TokenizerFacts.

(** Induction for facts about a loop state at index [i]: inside the path,
    the fact may be assumed at every later index. *)
Lemma loop_induction (path : string) (P : nat -> Prop) :
  (forall i, (i < String.length path -> forall j, i < j -> P j) -> P i) ->
  forall i, P i.
Proof.
  intros Hstep.
  assert (Hn : forall n i, String.length path - i <= n -> P i).
  { induction n as [|n IH]; intros i Hi; apply Hstep; intros Hlt j Hj.
    - lia.
    - apply IH. lia. }
  intros i. apply (Hn (String.length path - i)). lia.
Qed.

(** *** The scan depends on the unread part of the path only *)

Lemma read_bracket_shift c path : forall i current,
  read_bracket (String c path) (S i) current =
  (S (fst (read_bracket path i current)), snd (read_bracket path i current)).
Proof.
  intros i. induction i as [i IH] using (loop_induction path).
  intros current.
  rewrite (read_bracket_eq (String c path)), (read_bracket_eq path i).
  simpl String.get.
  destruct (String.get i path) as [ch|] eqn:Hget; [|reflexivity].
  destruct (Ascii.eqb ch "]"); [reflexivity|].
  replace (S i + 1) with (S (i + 1)) by lia.
  apply IH; [|lia]. eapply get_lt, Hget.
Qed.

Lemma skip_dot_shift c path i :
  skip_dot (String c path) (S i) = S (skip_dot path i).
Proof.
  unfold skip_dot. simpl String.get.
  destruct (is_char (String.get i path) "."); lia.
Qed.

Lemma tokenize_loop_shift c path : forall i current segments,
  tokenize_loop (String c path) (S i) current segments =
  tokenize_loop path i current segments.
Proof.
  intros i. induction i as [i IH] using (loop_induction path).
  intros current segments.
  rewrite (tokenize_loop_eq (String c path)), (tokenize_loop_eq path i).
  simpl String.get.
  destruct (String.get i path) as [ch|] eqn:Hget; [|reflexivity].
  assert (Hlt : i < String.length path) by (eapply get_lt, Hget).
  replace (S i + 1) with (S (i + 1)) by lia.
  replace (S i + 2) with (S (i + 2)) by lia.
  simpl String.get.
  destruct (Ascii.eqb ch "\" && is_char (String.get (i + 1) path) ".").
  { apply IH; [exact Hlt|lia]. }
  destruct (Ascii.eqb ch "."). { apply IH; [exact Hlt|lia]. }
  destruct (Ascii.eqb ch "[").
  - rewrite read_bracket_shift. cbn [fst snd].
    replace (S (fst (read_bracket path (i + 1) "")) + 1)
      with (S (fst (read_bracket path (i + 1) "") + 1)) by lia.
    rewrite skip_dot_shift. apply IH; [exact Hlt|].
    pose proof (read_bracket_ge path (i + 1) "").
    unfold skip_dot. destruct (is_char _ _); lia.
  - apply IH; [exact Hlt|lia].
Qed.

(** Scanning [pre ++ path] from an index past [pre] is scanning [path]. *)
Lemma tokenize_loop_suffix pre path i current segments :
  tokenize_loop (pre ++ path) (String.length pre + i) current segments =
  tokenize_loop path i current segments.
Proof.
  induction pre as [|c pre IH]; [reflexivity|].
  rewrite app_cons.
  change (String.length (String c pre) + i) with (S (String.length pre + i)).
  rewrite tokenize_loop_shift. exact IH.
Qed.

(** *** The scan, read from the front of the unread part *)

Lemma scan_end current segments :
  tokenize_loop "" 0 current segments = push segments current.
Proof. apply loop_end. reflexivity. Qed.

Lemma scan_dot path current segments :
  tokenize_loop (String "." path) 0 current segments =
  tokenize_loop path 0 "" (push segments current).
Proof.
  rewrite loop_dot by reflexivity. apply (tokenize_loop_shift "." path 0).
Qed.

Lemma scan_escaped_dot path current segments :
  tokenize_loop (String "\" (String "." path)) 0 current segments =
  tokenize_loop path 0 (current ++ ".") segments.
Proof.
  rewrite loop_escaped_dot by reflexivity.
  apply (tokenize_loop_suffix "\." path 0).
Qed.

Lemma scan_backslash path current segments :
  String.get 0 path <> Some "."%char ->
  tokenize_loop (String "\" path) 0 current segments =
  tokenize_loop path 0 (add_char current "\") segments.
Proof.
  intros H. rewrite loop_backslash; [|reflexivity|exact H].
  apply (tokenize_loop_shift "\" path 0).
Qed.

Lemma scan_plain c path current segments :
  c <> "\"%char -> c <> "."%char -> c <> "["%char ->
  tokenize_loop (String c path) 0 current segments =
  tokenize_loop path 0 (add_char current c) segments.
Proof.
  intros Hb Hd Hk. rewrite (loop_plain _ 0 c) by (auto; reflexivity).
  apply (tokenize_loop_shift c path 0).
Qed.

(** A dot met with an empty accumulator separates nothing. *)
Lemma scan_idle_dot path segments :
  tokenize_loop (String "." path) 0 "" segments =
  tokenize_loop path 0 "" segments.
Proof. rewrite scan_dot. reflexivity. Qed.

(** A closed bracket pair: the accumulator and the content are pushed, and
    the scan goes on behind the pair. *)
Lemma scan_bracket content rest current segments :
  ~ has_char "]" content ->
  tokenize_loop (String "[" (content ++ String "]" rest)) 0 current segments
  = tokenize_loop rest 0 "" (push (push segments current) content).
Proof.
  intros Hc. rewrite loop_bracket by reflexivity.
  change (String "[" (content ++ String "]" rest))
    with ("[" ++ content ++ String "]" rest).
  change (0 + 1) with (String.length "[").
  rewrite (read_bracket_content "[" content rest "" Hc). cbn [fst snd].
  set (segments' := push (push segments current) ("" ++ content)).
  replace ("[" ++ content ++ String "]" rest)
    with (String "[" (content ++ "]") ++ rest)
    by (rewrite app_cons, app_assoc; reflexivity).
  assert (Hlen : String.length "[" + String.length content + 1
                 = String.length (String "[" (content ++ "]"))).
  { simpl. rewrite length_app. simpl. lia. }
  unfold skip_dot. rewrite Hlen, get_app_here.
  destruct rest as [|c rest].
  - simpl is_char. cbn iota.
    rewrite <- (Nat.add_0_r (String.length _)).
    apply tokenize_loop_suffix.
  - destruct (decide (c = "."%char)) as [->|Hne].
    + replace (is_char (String.get 0 (String "." rest)) ".") with true
        by reflexivity.
      change (String "[" (content ++ "]") ++ String "." rest)
        with (String "[" (content ++ "]") ++ "." ++ rest).
      rewrite <- app_assoc.
      replace (String.length (String "[" (content ++ "]")) + 1)
        with (String.length (String "[" (content ++ "]") ++ ".") + 0)
        by (rewrite length_app; simpl; lia).
      rewrite tokenize_loop_suffix, scan_idle_dot. reflexivity.
    + replace (is_char (String.get 0 (String c rest)) ".") with false.
      * rewrite <- (Nat.add_0_r (String.length _)).
        apply tokenize_loop_suffix.
      * symmetry. apply is_char_false. simpl. congruence.
Qed.

Lemma skip_dot_ge path i : i <= skip_dot path i.
Proof. unfold skip_dot. destruct (is_char _ _); lia. Qed.

(** *** Segments already pushed stay as they are *)

Lemma push_prefix segments current :
  push segments current = (segments ++ push [] current)%list.
Proof.
  unfold push. destruct (decide (current = ""));
    [rewrite app_nil_r|]; reflexivity.
Qed.

Lemma loop_segments_prefix path : forall i current segments,
  tokenize_loop path i current segments
  = (segments ++ tokenize_loop path i current [])%list.
Proof.
  intros i. induction i as [i IH] using (loop_induction path).
  intros current segments.
  rewrite (tokenize_loop_eq path i current segments),
    (tokenize_loop_eq path i current []).
  destruct (String.get i path) as [ch|] eqn:Hget; [|apply push_prefix].
  assert (Hlt : i < String.length path) by (eapply get_lt, Hget).
  destruct (Ascii.eqb ch "\" && is_char (String.get (i + 1) path) ".").
  { apply IH; [exact Hlt|lia]. }
  destruct (Ascii.eqb ch ".").
  { rewrite (IH Hlt (i + 1) ltac:(lia) "" (push segments current)).
    rewrite (IH Hlt (i + 1) ltac:(lia) "" (push [] current)).
    rewrite push_prefix, List.app_assoc. reflexivity. }
  destruct (Ascii.eqb ch "[").
  - pose proof (read_bracket_ge path (i + 1) "") as Hge.
    pose proof (skip_dot_ge path (fst (read_bracket path (i + 1) "") + 1))
      as Hskip.
    set (j := skip_dot path (fst (read_bracket path (i + 1) "") + 1)) in *.
    set (content := snd (read_bracket path (i + 1) "")).
    rewrite (IH Hlt j ltac:(lia) "" (push (push segments current) content)).
    rewrite (IH Hlt j ltac:(lia) "" (push (push [] current) content)).
    rewrite (push_prefix (push segments current)), (push_prefix segments),
      (push_prefix (push [] current)).
    rewrite !List.app_assoc. reflexivity.
  - apply IH; [exact Hlt|lia].
Qed.

(** *** What the segments are made of *)

Lemma push_nonempty_all segments current :
  Forall (fun s => s <> "") segments ->
  Forall (fun s => s <> "") (push segments current).
Proof.
  intros H. unfold push. destruct (decide (current = "")); [exact H|].
  apply Forall_app. split; [exact H|]. repeat constructor. assumption.
Qed.

Lemma loop_segments_nonempty path : forall i current segments,
  Forall (fun s => s <> "") segments ->
  Forall (fun s => s <> "") (tokenize_loop path i current segments).
Proof.
  intros i. induction i as [i IH] using (loop_induction path).
  intros current segments Hsegs. rewrite tokenize_loop_eq.
  destruct (String.get i path) as [ch|] eqn:Hget;
    [|apply push_nonempty_all; exact Hsegs].
  assert (Hlt : i < String.length path) by (eapply get_lt, Hget).
  destruct (Ascii.eqb ch "\" && is_char (String.get (i + 1) path) ".").
  { apply IH; [exact Hlt|lia|exact Hsegs]. }
  destruct (Ascii.eqb ch ".").
  { apply IH; [exact Hlt|lia|apply push_nonempty_all; exact Hsegs]. }
  destruct (Ascii.eqb ch "[").
  - apply IH; [exact Hlt| |do 2 apply push_nonempty_all; exact Hsegs].
    pose proof (read_bracket_ge path (i + 1) "").
    unfold skip_dot. destruct (is_char _ _); lia.
  - apply IH; [exact Hlt|lia|exact Hsegs].
Qed.

(** X1.  No segment is empty: whatever the path, with leading, trailing or
    repeated dots or with empty bracket pairs, every segment the tokenizer
    returns has at least one character. *)
Theorem tokenize_no_empty_segment path segment :
  segment ∈ tokenize path -> segment <> "".
Proof.
  intros Hin.
  pose proof (loop_segments_nonempty path 0 "" [] (Forall_nil_2 _)) as Hall.
  rewrite Forall_forall in Hall. exact (Hall segment Hin).
Qed.

Lemma tokenize_no_empty_segment_witness :
  "b" ∈ tokenize "..a[].b." /\ "b" <> "".
Proof.
  assert (Hin : "b" ∈ tokenize "..a[].b.")
    by (vm_compute; repeat constructor).
  split; [exact Hin|].
  exact (tokenize_no_empty_segment "..a[].b." "b" Hin).
Defined.

Lemma read_bracket_extent path : forall i current,
  String.length (snd (read_bracket path i current)) + i
  = String.length current + fst (read_bracket path i current)
  /\ (i <= String.length path ->
      fst (read_bracket path i current) <= String.length path).
Proof.
  intros i. induction i as [i IH] using (loop_induction path).
  intros current. rewrite read_bracket_eq.
  destruct (String.get i path) as [ch|] eqn:Hget; [|simpl; lia].
  assert (Hlt : i < String.length path) by (eapply get_lt, Hget).
  destruct (Ascii.eqb ch "]"); [simpl; lia|].
  destruct (IH Hlt (i + 1) ltac:(lia) (add_char current ch)) as [Hlen Hle].
  unfold add_char in Hlen at 2. rewrite length_app in Hlen.
  change (String.length (String ch "")) with 1 in Hlen.
  split; [lia|]. intros _. apply Hle. lia.
Qed.

Lemma total_length_push segments current :
  total_length (push segments current)
  = total_length segments + String.length current.
Proof.
  unfold push. destruct (decide (current = "")) as [->|_]; [simpl; lia|].
  unfold total_length. rewrite foldr_app. simpl.
  induction segments as [|s segments IH]; simpl; [lia|].
  rewrite IH. lia.
Qed.

Lemma loop_total_length path : forall i current segments,
  total_length (tokenize_loop path i current segments)
  <= total_length segments + String.length current
     + (String.length path - i).
Proof.
  intros i. induction i as [i IH] using (loop_induction path).
  intros current segments. rewrite tokenize_loop_eq.
  destruct (String.get i path) as [ch|] eqn:Hget;
    [|rewrite total_length_push; lia].
  assert (Hlt : i < String.length path) by (eapply get_lt, Hget).
  destruct (Ascii.eqb ch "\" && is_char (String.get (i + 1) path) ".").
  { etransitivity; [apply IH; [exact Hlt|lia]|].
    rewrite length_app. simpl. lia. }
  destruct (Ascii.eqb ch ".").
  { etransitivity; [apply IH; [exact Hlt|lia]|].
    rewrite total_length_push. simpl. lia. }
  destruct (Ascii.eqb ch "[").
  - destruct (read_bracket_extent path (i + 1) "") as [Hlen Hle].
    pose proof (read_bracket_ge path (i + 1) "") as Hge.
    assert (Hskip : fst (read_bracket path (i + 1) "") + 1
                    <= skip_dot path (fst (read_bracket path (i + 1) "") + 1))
      by (unfold skip_dot; destruct (is_char _ _); lia).
    etransitivity; [apply IH; [exact Hlt|lia]|].
    rewrite !total_length_push. specialize (Hle ltac:(lia)).
    change (String.length "") with 0 in *. lia.
  - etransitivity; [apply IH; [exact Hlt|lia]|].
    unfold add_char. rewrite length_app. simpl. lia.
Qed.

Lemma count_le_total_length segments :
  Forall (fun s => s <> "") segments ->
  length segments <= total_length segments.
Proof.
  unfold total_length.
  induction 1 as [|s segments Hs _ IH]; [reflexivity|].
  destruct s as [|c s]; [congruence|].
  cbn [foldr length String.length]. lia.
Qed.

(** X2.  The segments take their characters from the path: together they
    are no longer than the path, and there are no more segments than the
    path has characters. *)
Theorem tokenize_within_path path :
  total_length (tokenize path) <= String.length path
  /\ length (tokenize path) <= String.length path.
Proof.
  assert (Htotal : total_length (tokenize path) <= String.length path).
  { pose proof (loop_total_length path 0 "" []) as H. simpl in H.
    unfold tokenize. lia. }
  split; [exact Htotal|].
  pose proof (loop_segments_nonempty path 0 "" [] (Forall_nil_2 _)) as Hall.
  fold (tokenize path) in Hall.
  pose proof (count_le_total_length _ Hall). lia.
Qed.

(** *** Unclosed brackets *)

Lemma read_bracket_unclosed pre content current :
  ~ has_char "]" content ->
  read_bracket (pre ++ content) (String.length pre) current
  = (String.length pre + String.length content, current ++ content).
Proof.
  unfold has_char. revert pre current.
  induction content as [|c content IH]; intros pre current Hnot.
  - rewrite read_bracket_eq, get_app_here. simpl.
    rewrite app_empty_r. f_equal. lia.
  - rewrite read_bracket_eq, get_app_here. simpl.
    assert (Hc : Ascii.eqb c "]" = false).
    { apply Ascii.eqb_neq. intros ->. apply Hnot. simpl. auto. }
    rewrite Hc.
    replace (pre ++ String c content) with ((pre ++ String c "") ++ content)
      by (rewrite app_assoc; reflexivity).
    replace (String.length pre + 1) with (String.length (pre ++ String c ""))
      by (rewrite length_app; reflexivity).
    rewrite IH by (intros Hin; apply Hnot; simpl; auto).
    rewrite length_app. unfold add_char. rewrite app_assoc. simpl.
    f_equal. lia.
Qed.

Lemma get_beyond path i : String.length path <= i -> String.get i path = None.
Proof.
  intros Hle. destruct (String.get i path) as [ch|] eqn:Hget; [|reflexivity].
  apply get_lt in Hget. lia.
Qed.

(** X3.  A bracket that is never closed takes the rest of the path, dots
    and backslashes included, as its content: the scan ends there with the
    accumulator and that content pushed, each if it is not empty. *)
Theorem tokenize_unclosed_bracket pre content current segments :
  ~ has_char "]" content ->
  tokenize_loop (pre ++ String "[" content) (String.length pre)
    current segments
  = push (push segments current) content.
Proof.
  intros Hc.
  rewrite loop_bracket by (rewrite get_app_here; reflexivity).
  replace (pre ++ String "[" content) with ((pre ++ "[") ++ content)
    by (rewrite app_assoc; reflexivity).
  replace (String.length pre + 1) with (String.length (pre ++ "["))
    by (rewrite length_app; reflexivity).
  rewrite (read_bracket_unclosed (pre ++ "[") content "" Hc). cbn [fst snd].
  assert (Hend : String.length ((pre ++ "[") ++ content)
                 <= String.length (pre ++ "[") + String.length content + 1)
    by (rewrite (length_app (pre ++ "[") content); lia).
  unfold skip_dot. rewrite (get_beyond _ _ Hend). simpl is_char. cbn iota.
  rewrite loop_end by (apply get_beyond; exact Hend).
  reflexivity.
Qed.

Lemma tokenize_unclosed_bracket_witness :
  ~ has_char "]" "b.c\.d" /\
  tokenize_loop "a[b.c\.d" 1 "a" [] = ["a"; "b.c\.d"].
Proof.
  assert (H : ~ has_char "]" "b.c\.d").
  { unfold has_char. simpl.
    intros Hin. repeat (destruct Hin as [Hin|Hin]; [discriminate Hin|]).
    destruct Hin. }
  split; [exact H|].
  exact (tokenize_unclosed_bracket "a" "b.c\.d" "a" [] H).
Defined.

(** *** Written paths are read back *)

Lemma last_char_cons c s :
  s <> "" -> last_char (String c s) = last_char s.
Proof. destruct s; [congruence|reflexivity]. Qed.

Lemma escape_dots_head_app k rest :
  k <> "" -> String.get 0 (escape_dots k ++ rest) <> Some "."%char.
Proof.
  intros Hk. destruct k as [|c k]; [congruence|]. simpl.
  destruct (Ascii.eqb c ".") eqn:E; rewrite app_cons; simpl; [discriminate|].
  apply Ascii.eqb_neq in E. congruence.
Qed.

(** Scanning an escaped key appends the key to the accumulator, provided
    that its last backslash, if it ends with one, is not followed by a
    dot. *)
Lemma scan_key k : forall rest current segments,
  ~ has_char "[" k ->
  last_char k <> Some "\"%char \/ String.get 0 rest <> Some "."%char ->
  tokenize_loop (escape_dots k ++ rest) 0 current segments
  = tokenize_loop rest 0 (current ++ k) segments.
Proof.
  unfold has_char.
  induction k as [|c k IH]; intros rest current segments Hk Hlast.
  - simpl escape_dots. rewrite app_empty_r. reflexivity.
  - assert (Hk' : ~ In "["%char (list_ascii_of_string k))
      by (intros Hin; apply Hk; simpl; auto).
    assert (Hc : c <> "["%char) by (intros ->; apply Hk; simpl; auto).
    assert (Hlast' : last_char k <> Some "\"%char
                     \/ String.get 0 rest <> Some "."%char).
    { destruct Hlast as [Hl|Hr]; [|auto].
      destruct k as [|c' k]; [left; discriminate|].
      left. rewrite <- (last_char_cons c); [exact Hl|discriminate]. }
    replace (current ++ String c k) with (add_char current c ++ k)
      by (unfold add_char; rewrite app_assoc; reflexivity).
    simpl escape_dots. destruct (Ascii.eqb c ".") eqn:Edot.
    + apply Ascii.eqb_eq in Edot as ->. rewrite !app_cons.
      rewrite scan_escaped_dot. apply IH; assumption.
    + apply Ascii.eqb_neq in Edot. rewrite app_cons.
      destruct (decide (c = "\"%char)) as [->|Hb].
      * rewrite scan_backslash; [apply IH; assumption|].
        destruct k as [|c' k].
        -- simpl. destruct Hlast as [Hl|Hr]; [|exact Hr].
           destruct Hl. reflexivity.
        -- apply escape_dots_head_app. discriminate.
      * rewrite scan_plain by assumption. apply IH; assumption.
Qed.

Lemma push_push_nonempty segments current s :
  s <> "" -> push (push segments current) s = (push segments current ++ [s])%list.
Proof. apply push_nonempty. Qed.

Lemma scan_render steps : forall current segments,
  Forall writable steps ->
  tokenize_loop (render steps) 0 current segments
  = (push segments current ++ (label <$> steps))%list.
Proof.
  induction steps as [|st steps IH]; intros current segments Hall.
  - simpl. rewrite scan_end, app_nil_r. reflexivity.
  - apply Forall_cons in Hall as [Hst Hall].
    destruct st as [k|s]; simpl in Hst.
    + destruct Hst as (Hne & Hbr & Hlast).
      cbn [render render_step]. rewrite app_cons, scan_dot.
      rewrite scan_key by auto.
      rewrite IH by exact Hall.
      change ("" ++ k) with k. rewrite push_push_nonempty by exact Hne.
      rewrite <- List.app_assoc. reflexivity.
    + destruct Hst as (Hne & Hbr).
      cbn [render render_step]. rewrite app_cons, app_assoc.
      change ("]" ++ render steps) with (String "]" (render steps)).
      rewrite scan_bracket by exact Hbr.
      rewrite IH by exact Hall.
      rewrite push_empty, push_push_nonempty by exact Hne.
      rewrite <- List.app_assoc. reflexivity.
Qed.

(** The dot that begins a written path separates nothing. *)
Lemma tokenize_path_of steps : tokenize (path_of steps) = tokenize (render steps).
Proof.
  unfold path_of. destruct (render steps) as [|c p]; [reflexivity|].
  destruct (decide (c = "."%char)) as [->|Hc].
  - unfold tokenize. rewrite scan_idle_dot. reflexivity.
  - destruct c as [[] [] [] [] [] [] [] []]; try reflexivity. congruence.
Qed.

(** X4.  A path written from keys and indices is read back as those keys
    and indices.  Each key is written after a dot with its own dots
    escaped, each index between brackets; a key must not be empty, contain
    ["["] or end with a backslash, an index must not be empty or contain
    ["]"].  The dot that begins the path may be left out. *)
Theorem tokenize_render steps :
  Forall writable steps ->
  tokenize (render steps) = label <$> steps
  /\ tokenize (path_of steps) = label <$> steps.
Proof.
  intros Hall.
  assert (H : tokenize (render steps) = label <$> steps).
  { unfold tokenize. rewrite (scan_render steps "" [] Hall). reflexivity. }
  split; [exact H|]. rewrite tokenize_path_of. exact H.
Qed.

Lemma tokenize_render_witness :
  Forall writable [Key "a.b"; Index "0"; Key "c\d"] /\
  path_of [Key "a.b"; Index "0"; Key "c\d"] = "a\.b[0].c\d" /\
  tokenize "a\.b[0].c\d" = ["a.b"; "0"; "c\d"].
Proof.
  assert (Hall : Forall writable [Key "a.b"; Index "0"; Key "c\d"]).
  { repeat constructor; try discriminate; unfold has_char; simpl;
      intros H; repeat (destruct H as [H|H]; [discriminate H|]); destruct H. }
  split; [exact Hall|]. split; [reflexivity|].
  exact (proj2 (tokenize_render [Key "a.b"; Index "0"; Key "c\d"] Hall)).
Defined.

(** Written paths compose: the segments of two written paths put one
    after the other are the segments of the first followed by those of the
    second. *)
Lemma tokenize_render_app steps1 steps2 :
  Forall writable steps1 -> Forall writable steps2 ->
  render (steps1 ++ steps2) = render steps1 ++ render steps2
  /\ tokenize (render steps1 ++ render steps2)
     = (tokenize (render steps1) ++ tokenize (render steps2))%list.
Proof.
  intros H1 H2.
  assert (Happ : render (steps1 ++ steps2) = render steps1 ++ render steps2).
  { clear. induction steps1 as [|st steps1 IH]; [reflexivity|].
    simpl. rewrite IH, app_assoc. reflexivity. }
  split; [exact Happ|]. rewrite <- Happ.
  unfold tokenize.
  rewrite !scan_render by (try apply Forall_app; auto).
  rewrite fmap_app. reflexivity.
Qed.

Lemma tokenize_render_app_witness :
  Forall writable [Key "users"; Index "0"] /\ Forall writable [Key "name"] /\
  tokenize (".users[0]" ++ ".name")
  = (tokenize ".users[0]" ++ tokenize ".name")%list.
Proof.
  assert (H1 : Forall writable [Key "users"; Index "0"]).
  { repeat constructor; try discriminate; unfold has_char; simpl;
      intros H; repeat (destruct H as [H|H]; [discriminate H|]); destruct H. }
  assert (H2 : Forall writable [Key "name"]).
  { repeat constructor; try discriminate; unfold has_char; simpl;
      intros H; repeat (destruct H as [H|H]; [discriminate H|]); destruct H. }
  split; [exact H1|]. split; [exact H2|].
  exact (proj2 (tokenize_render_app [Key "users"; Index "0"] [Key "name"]
                  H1 H2)).
Defined.

(** *** Separators are not part of any segment *)

Lemma has_char_get c s :
  has_char c s -> exists j, String.get j s = Some c.
Proof.
  unfold has_char. induction s as [|a s IH]; simpl; [tauto|].
  intros [->|Hin].
  - exists 0. reflexivity.
  - destruct (IH Hin) as [j Hj]. exists (S j). exact Hj.
Qed.

(** When a dot or an opening bracket is still to be read, at least one
    character of the rest of the path goes into no segment. *)
Lemma loop_total_length_strict path : forall i current segments,
  (exists j, i <= j /\ (String.get j path = Some "."%char
                        \/ String.get j path = Some "["%char)) ->
  total_length (tokenize_loop path i current segments)
  < total_length segments + String.length current
    + (String.length path - i).
Proof.
  intros i. induction i as [i IH] using (loop_induction path).
  intros current segments (j & Hij & Hj). rewrite tokenize_loop_eq.
  destruct (String.get i path) as [ch|] eqn:Hget.
  2:{ assert (j < String.length path)
        by (destruct Hj as [Hj|Hj]; eapply get_lt, Hj).
      assert (String.get j path = None); [|destruct Hj; congruence].
      destruct (String.get j path) as [c|] eqn:E; [|reflexivity].
      assert (String.length path <= i); [|lia].
      destruct (le_lt_dec (String.length path) i) as [Hle|Hgt]; [exact Hle|].
      apply get_is_Some in Hgt as [c' Hc']. congruence. }
  assert (Hlt : i < String.length path) by (eapply get_lt, Hget).
  destruct (Ascii.eqb ch "\" && is_char (String.get (i + 1) path) ".")
    eqn:Hesc.
  { apply andb_true_iff in Hesc as [_ Hnext].
    apply is_char_true, get_lt in Hnext.
    eapply Nat.le_lt_trans; [apply loop_total_length|].
    rewrite length_app. simpl. lia. }
  destruct (Ascii.eqb ch ".") eqn:Hdot.
  { eapply Nat.le_lt_trans; [apply loop_total_length|].
    rewrite total_length_push. simpl. lia. }
  destruct (Ascii.eqb ch "[") eqn:Hbr.
  - destruct (read_bracket_extent path (i + 1) "") as [Hlen Hle].
    specialize (Hle ltac:(lia)).
    pose proof (skip_dot_ge path (fst (read_bracket path (i + 1) "") + 1))
      as Hskip.
    eapply Nat.le_lt_trans; [apply loop_total_length|].
    rewrite !total_length_push. change (String.length "") with 0 in *. lia.
  - apply Ascii.eqb_neq in Hdot, Hbr.
    assert (Hne : i <> j) by (intros ->; destruct Hj; congruence).
    eapply Nat.lt_le_trans.
    + apply IH; [exact Hlt|lia|]. exists j. split; [lia|exact Hj].
    + unfold add_char. rewrite length_app. simpl. lia.
Qed.

Lemma tokenize_loses_separator path :
  has_char "." path \/ has_char "[" path ->
  total_length (tokenize path) < String.length path.
Proof.
  intros Hspecial.
  pose proof (loop_total_length_strict path 0 "" []) as H. simpl in H.
  unfold tokenize. rewrite Nat.sub_0_r in H. apply H.
  destruct Hspecial as [Hc|Hc]; apply has_char_get in Hc as [j Hj];
    exists j; split; auto; lia.
Qed.

Lemma total_length_elem (s : string) segments :
  s ∈ segments -> String.length s <= total_length segments.
Proof.
  intros Hin. unfold total_length. induction Hin; simpl; lia.
Qed.

(** X12.  A path that contains a dot or an opening bracket names no key
    equal to itself: none of its segments is the path as written.  A key
    with such a character in it is therefore not addressed by writing the key
    as the path. *)
Theorem tokenize_not_verbatim path :
  has_char "." path \/ has_char "[" path ->
  path ∉ tokenize path.
Proof.
  intros Hspecial Hin.
  pose proof (tokenize_loses_separator path Hspecial) as Hstrict.
  pose proof (total_length_elem path (tokenize path) Hin) as Hle.
  lia.
Qed.

Lemma tokenize_not_verbatim_witness :
  has_char "." "first.name" /\ "first.name" ∉ tokenize "first.name".
Proof.
  assert (H : has_char "." "first.name") by (unfold has_char; simpl; tauto).
  split; [exact H|].
  exact (tokenize_not_verbatim "first.name" (or_introl H)).
Defined.

(** A path made of dots only has no segment. *)
Lemma tokenize_dots_only path :
  (forall c, has_char c path -> c = "."%char) -> tokenize path = [].
Proof.
  unfold tokenize, has_char. induction path as [|c path IH]; intros Hall.
  - reflexivity.
  - rewrite (Hall c) by (simpl; auto). rewrite scan_idle_dot.
    apply IH. intros c' Hc'. apply Hall. simpl. auto.
Qed.

End TokenizerMore.

(** ** Properties of the tokenizer *)

Module TokenizerClaims.
Import Tokenizer Scenario Paths TokenizerFacts TokenizerMore.

(** The rest of a path behind a closing bracket, without the one dot that
    may directly follow the bracket. *)
Lemma tokenize_skipped_dot rest :
  tokenize match rest with
           | String "." r => r
           | _ => rest
           end = tokenize rest.
Proof.
  destruct rest as [|c r]; [reflexivity|].
  destruct (decide (c = "."%char)) as [->|Hc].
  - unfold tokenize. rewrite scan_idle_dot. reflexivity.
  - destruct c as [[] [] [] [] [] [] [] []]; try reflexivity. congruence.
Qed.

(** C7, as amended.  When the scan stands on a ["["] that has a matching
    ["]"], it pushes the accumulator if it is not empty, takes the characters
    up to that ["]"] as the bracket content, pushes the content if it is not
    empty, and resumes behind the ["]"] and behind one ["."] that directly
    follows it: the result is the segments so far, the accumulator, the
    content, and the segments of what follows.  So [matrix[1][0]] gives
    [matrix], [1], [0] and [a[0].b] gives [a], [0], [b], while the empty
    pair in [a[]] gives no segment. *)
Theorem tokenize_bracket pre content rest current segments :
  ~ has_char "]" content ->
  tokenize_loop (pre ++ String "[" (content ++ String "]" rest))
    (String.length pre) current segments
  = (segments ++ push [] current ++ push [] content
     ++ tokenize match rest with
                 | String "." r => r
                 | _ => rest
                 end)%list
  /\ (forall steps, Forall writable steps ->
        tokenize_loop
          (pre ++ String "[" (content ++ String "]" (render steps)))
          (String.length pre) current segments
        = (segments ++ push [] current ++ push [] content
           ++ (label <$> steps))%list)
  /\ tokenize "matrix[1][0]" = ["matrix"; "1"; "0"]
  /\ tokenize "a[0].b" = ["a"; "0"; "b"]
  /\ tokenize "a[]" = ["a"].
Proof.
  intros Hc.
  assert (Hscan : forall r,
    tokenize_loop (pre ++ String "[" (content ++ String "]" r))
      (String.length pre) current segments
    = tokenize_loop r 0 ""
        (segments ++ push [] current ++ push [] content)%list).
  { intros r. rewrite <- (Nat.add_0_r (String.length pre)).
    rewrite tokenize_loop_suffix, scan_bracket by exact Hc.
    rewrite (push_prefix (push segments current)), (push_prefix segments).
    rewrite <- List.app_assoc. reflexivity. }
  split; [|split; [|repeat split; reflexivity]].
  - rewrite Hscan, loop_segments_prefix, tokenize_skipped_dot.
    rewrite <- !List.app_assoc. reflexivity.
  - intros steps Hall. rewrite Hscan, scan_render by exact Hall.
    rewrite push_empty, <- !List.app_assoc. reflexivity.
Qed.

Lemma tokenize_bracket_witness :
  ~ has_char "]" "0" /\
  tokenize_loop "a[0].b" 1 "a" [] = ["a"; "0"; "b"].
Proof.
  assert (H : ~ has_char "]" "0").
  { unfold has_char. simpl. intros [E|[]]. discriminate E. }
  split; [exact H|].
  exact (proj1 (tokenize_bracket "a" "0" ".b" "a" [] H)).
Defined.

(** C7 as the specification words it fails on the empty bracket pair of
    [a[]]: the scan resumes with the single segment [a], not with [a]
    followed by an empty segment. *)
Lemma tokenize_bracket_empty_content :
  tokenize_loop "a[]" 1 "a" [] = ["a"] /\
  tokenize_loop "a[]" 1 "a" [] <>
  tokenize_loop "a[]" 3 "" (bracket_step_spec [] "a" "").
Proof. split; [reflexivity|]. vm_compute. discriminate. Qed.

(** C10.  A backslash that is not directly followed by a dot is copied as
    it is into the segment being read: with the rest of that segment and
    the steps behind it written out, the segment read is the accumulator,
    the backslash and the rest of the key.  Only a backslash directly
    before a dot is rewritten, and gives a dot without the backslash.  The
    path [a\b.c] has the segments [a\b] and [c]. *)
Theorem tokenize_backslash pre k steps current segments :
  ~ has_char "[" k -> last_char k <> Some "\"%char ->
  Forall writable steps ->
  (String.get 0 (escape_dots k ++ render steps) <> Some "."%char ->
   tokenize_loop (pre ++ String "\" (escape_dots k ++ render steps))
     (String.length pre) current segments
   = (segments ++ [(current ++ String "\" k)%string]
      ++ (label <$> steps))%list)
  /\ tokenize_loop
       (pre ++ String "\" (String "." (escape_dots k ++ render steps)))
       (String.length pre) current segments
     = (segments ++ [(current ++ String "." k)%string]
        ++ (label <$> steps))%list
  /\ (forall rest, String.get 0 rest <> Some "."%char ->
        tokenize_loop (pre ++ String "\" rest) (String.length pre)
          current segments
        = (segments
           ++ tokenize_loop rest 0 (current ++ "\")%string [])%list)
  /\ tokenize "a\b.c" = ["a\b"; "c"].
Proof.
  intros Hk Hlast Hall.
  assert (Hkey : forall c,
    tokenize_loop (escape_dots k ++ render steps) 0
      (current ++ String c "") segments
    = (segments ++ [(current ++ String c k)%string]
       ++ (label <$> steps))%list).
  { intros c. rewrite scan_key by auto. rewrite scan_render by exact Hall.
    rewrite app_assoc. change (String c "" ++ k) with (String c k).
    rewrite push_nonempty by (destruct current; discriminate).
    rewrite <- List.app_assoc. reflexivity. }
  assert (Hhere : forall rest,
    tokenize_loop (pre ++ rest) (String.length pre) current segments
    = tokenize_loop rest 0 current segments).
  { intros rest. rewrite <- (Nat.add_0_r (String.length pre)).
    apply tokenize_loop_suffix. }
  split; [|split; [|split; [|reflexivity]]].
  - intros Hnext. rewrite Hhere, scan_backslash by exact Hnext.
    apply Hkey.
  - rewrite Hhere, scan_escaped_dot. apply Hkey.
  - intros rest Hnext. rewrite Hhere, scan_backslash by exact Hnext.
    apply loop_segments_prefix.
Qed.

Lemma tokenize_backslash_witness :
  ~ has_char "[" "b" /\ last_char "b" <> Some "\"%char /\
  Forall writable [Key "c"] /\
  String.get 0 (escape_dots "b" ++ render [Key "c"]) <> Some "."%char /\
  tokenize_loop "a\b.c" 1 "a" [] = ["a\b"; "c"].
Proof.
  assert (Hk : ~ has_char "[" "b").
  { unfold has_char. simpl. intros [E|[]]. discriminate E. }
  assert (Hlast : last_char "b" <> Some "\"%char) by discriminate.
  assert (Hall : Forall writable [Key "c"]).
  { repeat constructor; try discriminate. unfold has_char. simpl.
    intros [E|[]]. discriminate E. }
  assert (Hnext : String.get 0 (escape_dots "b" ++ render [Key "c"])
                  <> Some "."%char) by discriminate.
  split; [exact Hk|]. split; [exact Hlast|]. split; [exact Hall|].
  split; [exact Hnext|].
  exact (proj1 (tokenize_backslash "a" "b" [Key "c"] "a" [] Hk Hlast Hall)
           Hnext).
Defined.

End TokenizerClaims.

(** ** More about the traverser *)

Module TraverserMore.
Import JS Tokenizer Traverser Scenario Paths.
Import TokenizerFacts TraverserFacts TokenizerMore.

(** *** What the result depends on *)

Lemma not_traversable_heap h1 h2 current :
  not_traversable h1 current = not_traversable h2 current.
Proof.
  destruct current; try reflexivity.
  rewrite !not_traversable_object. reflexivity.
Qed.

Lemma for_segments_props_only h1 h2 :
  (forall l, obj_props (deref h1 l) = obj_props (deref h2 l)) ->
  forall segments current defaultVal,
    fst (for_segments segments current defaultVal h1)
    = fst (for_segments segments current defaultVal h2).
Proof.
  intros Hprops segments.
  induction segments as [|segment rest IH]; intros current defaultVal.
  - reflexivity.
  - rewrite !for_segments_step, (not_traversable_heap h1 h2).
    destruct (UNSAFE_KEYS_has segment); [reflexivity|].
    destruct (not_traversable h2 current); [reflexivity|].
    destruct current; try reflexivity.
    rewrite Hprops.
    destruct (obj_props (deref h2 l) !! segment); [apply IH|reflexivity].
Qed.

Lemma relink_props f h l :
  obj_props (deref (relink f h) l) = obj_props (deref h l).
Proof.
  unfold deref, relink. rewrite map_lookup_imap.
  destruct (h !! l); reflexivity.
Qed.

(** X5.  The result depends on the own properties of the objects only:
    giving any object another prototype, or making it callable or not,
    changes the result of no call. *)
Theorem fallbackValue_own_properties_only f val path defaultVal h :
  fst (fallbackValue val path defaultVal (relink f h))
  = fst (fallbackValue val path defaultVal h).
Proof.
  destruct path as [| |p]; try reflexivity.
  rewrite !fallbackValue_path.
  pose proof (for_segments_props_only (relink f h) h (relink_props f h)
                (tokenize p) val defaultVal) as Hfst.
  destruct (for_segments (tokenize p) val defaultVal (relink f h))
    as [[[r1|c1]|e1] h1'],
    (for_segments (tokenize p) val defaultVal h) as [[[r2|c2]|e2] h2'];
    simpl in Hfst; try discriminate; injection Hfst as ->; reflexivity.
Qed.

(** *** The result and the fallback *)

Lemma fallbackValue_found_or_not val path defaultVal h :
  exists r, fallbackValue val path defaultVal h = (Normal r, h).
Proof.
  destruct path as [| |p]; try (eexists; reflexivity).
  rewrite fallbackValue_path.
  destruct (for_segments_total (tokenize p) h val defaultVal) as [[r|c] ->];
    eauto.
Qed.

Lemma fallbackValue_undefined val path defaultVal h :
  fst (fallbackValue val path defaultVal h) = Normal VUndefined ->
  defaultVal = VUndefined.
Proof.
  destruct path as [| |p].
  - unfold fallbackValue. simpl. destruct val; simpl; congruence.
  - unfold fallbackValue. simpl. destruct val; simpl; congruence.
  - rewrite fallbackValue_path.
    destruct (for_segments (tokenize p) val defaultVal h)
      as [[[r|c]|e] h'] eqn:Hloop; simpl; try discriminate.
    + apply for_segments_returned in Hloop. congruence.
    + destruct c; simpl; congruence.
Qed.

(** X7.  A call never returns [undefined], whatever its three arguments: a
    fallback that is left out or is [undefined] is taken to be [null], and
    a stored [undefined] is replaced by the fallback. *)
Theorem call_never_returns_undefined val path arg h :
  exists r, call_fallbackValue val path arg h = (Normal r, h)
            /\ r <> VUndefined.
Proof.
  unfold call_fallbackValue.
  set (d := if is_undefined arg then VNull else arg).
  assert (Hd : d <> VUndefined) by (unfold d; destruct arg; discriminate).
  destruct (fallbackValue_found_or_not val path d h) as [r Hr].
  exists r. split; [exact Hr|]. intros ->.
  apply Hd, (fallbackValue_undefined val path d h). rewrite Hr. reflexivity.
Qed.

(** *** The result and what is stored *)

Lemma UNSAFE_KEYS_has_false segment :
  UNSAFE_KEYS_has segment = false <-> segment ∉ UNSAFE_KEYS.
Proof. unfold UNSAFE_KEYS_has. apply bool_decide_eq_false. Qed.

(** The loop runs to its end on [c] exactly when the segments are a chain
    of own properties from the root to [c] and none of them is reserved. *)
Lemma for_segments_finished segments : forall h current defaultVal c,
  for_segments segments current defaultVal h = (Normal (Finished c), h)
  <-> reaches h current segments c
      /\ Forall (fun s => s ∉ UNSAFE_KEYS) segments.
Proof.
  induction segments as [|segment rest IH]; intros h current defaultVal c.
  - split.
    + intros [= ->]. split; constructor.
    + intros [Hr _]. inversion Hr; subst. reflexivity.
  - rewrite for_segments_step. split.
    + destruct (UNSAFE_KEYS_has segment) eqn:Hu; [discriminate|].
      destruct (not_traversable h current); [discriminate|].
      destruct current; try discriminate.
      destruct (obj_props (deref h l) !! segment) as [v|] eqn:Hown;
        [|discriminate].
      intros Hloop. apply IH in Hloop as [Hr Hsafe]. split.
      * econstructor; eauto.
      * constructor; [apply UNSAFE_KEYS_has_false; exact Hu|exact Hsafe].
    + intros [Hr Hsafe]. inversion Hr as [|l s v rest' c' Hown Hrest]; subst.
      apply Forall_cons in Hsafe as [Hs Hsafe].
      apply UNSAFE_KEYS_has_false in Hs. rewrite Hs.
      rewrite not_traversable_object, Hown.
      apply IH. split; assumption.
Qed.

(** X8.  What is stored is found: when the segments of the path are a chain
    of own properties from the root to a value, and none of them is a
    reserved key, the call returns that value, or the fallback if that
    value is [undefined]. *)
Theorem fallbackValue_finds_stored val p defaultVal h c :
  reaches h val (tokenize p) c ->
  Forall (fun s => s ∉ UNSAFE_KEYS) (tokenize p) ->
  fallbackValue val (PathString p) defaultVal h
  = (Normal (if is_undefined c then defaultVal else c), h).
Proof.
  intros Hr Hsafe. rewrite fallbackValue_path.
  rewrite (proj2 (for_segments_finished _ h val defaultVal c)
             (conj Hr Hsafe)).
  reflexivity.
Qed.

Lemma fallbackValue_finds_stored_witness :
  reaches heap_matrix (VObject root) (tokenize "matrix[1][0]") (VNumber 3) /\
  fallbackValue (VObject root) (PathString "matrix[1][0]") (VNumber 0)
    heap_matrix = (Normal (VNumber 3), heap_matrix).
Proof.
  assert (Hr : reaches heap_matrix (VObject root) (tokenize "matrix[1][0]")
                 (VNumber 3)).
  { change (tokenize "matrix[1][0]") with ["matrix"; "1"; "0"].
    apply (reaches_step _ root "matrix" (VObject inner)); [reflexivity|].
    apply (reaches_step _ inner "1" (VObject 103%positive)); [reflexivity|].
    apply (reaches_step _ 103%positive "0" (VNumber 3)); [reflexivity|].
    constructor. }
  assert (Hsafe : Forall (fun s => s ∉ UNSAFE_KEYS) (tokenize "matrix[1][0]")).
  { change (tokenize "matrix[1][0]") with ["matrix"; "1"; "0"].
    repeat constructor; apply UNSAFE_KEYS_has_false; reflexivity. }
  split; [exact Hr|].
  exact (fallbackValue_finds_stored (VObject root) "matrix[1][0]" (VNumber 0)
           heap_matrix (VNumber 3) Hr Hsafe).
Defined.

(** X9.  What is found is stored: a result other than the fallback is a
    value that the segments of the path lead to, each step through an own
    property and none through a reserved key, and it is not [undefined]. *)
Theorem fallbackValue_result_stored val p defaultVal h r :
  fst (fallbackValue val (PathString p) defaultVal h) = Normal r ->
  r <> defaultVal ->
  reaches h val (tokenize p) r
  /\ Forall (fun s => s ∉ UNSAFE_KEYS) (tokenize p)
  /\ r <> VUndefined.
Proof.
  intros Hres Hne. rewrite fallbackValue_path in Hres.
  destruct (for_segments_total (tokenize p) h val defaultVal)
    as [[r'|c] Hloop]; rewrite Hloop in Hres; simpl in Hres.
  - apply for_segments_returned in Hloop. congruence.
  - assert (Hc : is_undefined c = false /\ r = c).
    { destruct (is_undefined c); [congruence|]. split; congruence. }
    destruct Hc as [Hu ->].
    apply for_segments_finished in Hloop as [Hr Hsafe].
    repeat split; [exact Hr|exact Hsafe|].
    intros ->. discriminate.
Qed.

Lemma fallbackValue_result_stored_witness :
  fst (fallbackValue (VObject root) (PathString "users[0].name")
         (VString "Unknown") heap_users) = Normal (VString "Alice") /\
  reaches heap_users (VObject root) (tokenize "users[0].name")
    (VString "Alice").
Proof.
  assert (Hres : fst (fallbackValue (VObject root)
                        (PathString "users[0].name") (VString "Unknown")
                        heap_users) = Normal (VString "Alice"))
    by reflexivity.
  split; [exact Hres|].
  refine (proj1 (fallbackValue_result_stored _ _ _ _ _ Hres _)).
  discriminate.
Defined.

(** X10.  Access composes along a written path: when the steps of a first
    part lead from the root to a value, resolving the first part followed
    by a second part from the root is resolving the second part from that
    value. *)
Theorem fallbackValue_render_app steps1 steps2 val defaultVal h c :
  Forall writable steps1 -> Forall writable steps2 ->
  for_segments (label <$> steps1) val defaultVal h = (Normal (Finished c), h) ->
  fallbackValue val (PathString (render (steps1 ++ steps2))) defaultVal h
  = fallbackValue c (PathString (render steps2)) defaultVal h.
Proof.
  intros H1 H2 Hloop. rewrite !fallbackValue_path. unfold tokenize.
  rewrite !scan_render by (try apply Forall_app; auto).
  rewrite push_empty, !app_nil_l, fmap_app, for_segments_app, Hloop.
  reflexivity.
Qed.

Lemma fallbackValue_render_app_witness :
  Forall writable [Key "users"; Index "0"] /\ Forall writable [Key "name"] /\
  fallbackValue (VObject root) (PathString ".users[0].name")
    (VString "Unknown") heap_users
  = fallbackValue (VObject 102%positive) (PathString ".name")
      (VString "Unknown") heap_users.
Proof.
  assert (H1 : Forall writable [Key "users"; Index "0"]).
  { repeat constructor; try discriminate; unfold has_char; simpl;
      intros H; repeat (destruct H as [H|H]; [discriminate H|]); destruct H. }
  assert (H2 : Forall writable [Key "name"]).
  { repeat constructor; try discriminate; unfold has_char; simpl;
      intros H; repeat (destruct H as [H|H]; [discriminate H|]); destruct H. }
  split; [exact H1|]. split; [exact H2|].
  apply (fallbackValue_render_app [Key "users"; Index "0"] [Key "name"]
           (VObject root) (VString "Unknown") heap_users
           (VObject 102%positive) H1 H2).
  reflexivity.
Defined.

(** *** Array elements *)

(** The decimal spelling of a number is made of digits and is not empty. *)
Lemma pretty_N_go_digits x : forall s,
  (forall c, has_char c s -> has_char c "0123456789") ->
  forall c, has_char c (pretty_N_go x s) -> has_char c "0123456789".
Proof.
  induction (N.lt_wf_0 x) as [x _ IH]. intros s Hs.
  destruct (decide (x = 0%N)) as [->|Hx].
  - rewrite pretty_N_go_0. exact Hs.
  - rewrite pretty_N_go_step by lia. apply IH; [apply N.div_lt; lia|].
    intros c [<-|Hc]; [|apply Hs; exact Hc].
    unfold pretty_N_char, has_char.
    repeat case_match; simpl; tauto.
Qed.

Lemma pretty_N_go_nonempty x : forall s, s <> "" -> pretty_N_go x s <> "".
Proof.
  induction (N.lt_wf_0 x) as [x _ IH]. intros s Hs.
  destruct (decide (x = 0%N)) as [->|Hx].
  - rewrite pretty_N_go_0. exact Hs.
  - rewrite pretty_N_go_step by lia. apply IH; [apply N.div_lt; lia|].
    discriminate.
Qed.

Lemma pretty_nat_digits (n : nat) c :
  has_char c (pretty n) -> has_char c "0123456789".
Proof.
  unfold pretty, pretty_nat, pretty, pretty_N.
  destruct (decide (N.of_nat n = 0%N)).
  - unfold has_char. simpl. tauto.
  - apply pretty_N_go_digits. intros c' [].
Qed.

Lemma pretty_nat_nonempty (n : nat) : pretty n <> "".
Proof.
  unfold pretty, pretty_nat, pretty, pretty_N.
  destruct (decide (N.of_nat n = 0%N)) as [_|Hn]; [discriminate|].
  rewrite pretty_N_go_step by lia. apply pretty_N_go_nonempty. discriminate.
Qed.

Lemma pretty_nat_writable (n : nat) : writable (Index (pretty n)).
Proof.
  split; [apply pretty_nat_nonempty|].
  intros Hc. apply pretty_nat_digits in Hc. unfold has_char in Hc.
  simpl in Hc. repeat (destruct Hc as [Hc|Hc]; [discriminate Hc|]).
  destruct Hc.
Qed.

Lemma pretty_nat_safe (n : nat) : UNSAFE_KEYS_has (pretty n) = false.
Proof.
  destruct (UNSAFE_KEYS_has (pretty n)) eqn:E; [|reflexivity].
  assert (Hc : has_char "o" (pretty n)).
  { apply UNSAFE_KEYS_has_spec in E as [ -> | [ -> | -> ] ];
      unfold has_char; simpl; tauto. }
  apply pretty_nat_digits in Hc. unfold has_char in Hc. simpl in Hc.
  repeat (destruct Hc as [Hc|Hc]; [discriminate Hc|]). destruct Hc.
Qed.

(** X11.  An array gives back its elements: against an array, the path
    [[n]], with [n] in decimal, resolves to the element at index [n] when
    there is one (or to the fallback when that element is [undefined]), and
    the path [length] resolves to the number of elements, for the empty
    array too. *)
Theorem fallbackValue_array_element elems defaultVal h l :
  h !! l = Some (array_literal elems) ->
  (forall n v, elems !! n = Some v ->
     fallbackValue (VObject l) (PathString (String "[" (pretty n ++ "]")))
       defaultVal h
     = (Normal (if is_undefined v then defaultVal else v), h))
  /\ fallbackValue (VObject l) (PathString "length") defaultVal h
     = (Normal (VNumber (Z.of_nat (length elems))), h).
Proof.
  intros Hl. split.
  - intros n v Hn. rewrite fallbackValue_path. unfold tokenize.
    replace (String "[" (pretty n ++ "]")) with (render [Index (pretty n)])
      by (cbn [render render_step]; apply app_empty_r).
    rewrite scan_render by (repeat constructor; apply pretty_nat_writable).
    change (push [] "" ++ (label <$> [Index (pretty n)]))%list
      with [pretty n].
    rewrite for_segments_step, pretty_nat_safe, not_traversable_object.
    unfold deref. rewrite Hl. simpl.
    rewrite (indexed_props_in_range elems n v Hn). reflexivity.
  - rewrite fallbackValue_path.
    change (tokenize "length") with ["length"].
    rewrite for_segments_step.
    change (UNSAFE_KEYS_has "length") with false. cbn iota.
    rewrite not_traversable_object.
    unfold deref. rewrite Hl. simpl. unfold indexed_props.
    rewrite lookup_insert_eq. reflexivity.
Qed.

Lemma fallbackValue_array_element_witness :
  heap_items !! inner = Some (array_literal [VNumber 1; VNumber 2]) /\
  fallbackValue (VObject inner) (PathString "[1]") (VNumber 0) heap_items
  = (Normal (VNumber 2), heap_items) /\
  fallbackValue (VObject inner) (PathString "length") (VNumber 0) heap_items
  = (Normal (VNumber 2), heap_items).
Proof.
  assert (Hl : heap_items !! inner
               = Some (array_literal [VNumber 1; VNumber 2]))
    by reflexivity.
  split; [exact Hl|].
  destruct (fallbackValue_array_element [VNumber 1; VNumber 2] (VNumber 0)
              heap_items inner Hl) as [Helem Hlen].
  split; [|exact Hlen].
  exact (Helem 1 (VNumber 2) eq_refl).
Defined.

(** *** Paths that name nothing *)

(** X13.  A path made of dots only, the empty path among them, has no
    segment to follow: the call returns the root itself, whatever it is, or
    the fallback if the root is [undefined]. *)
Theorem fallbackValue_dots_only val p defaultVal h :
  (forall c, has_char c p -> c = "."%char) ->
  fallbackValue val (PathString p) defaultVal h
  = (Normal (if is_undefined val then defaultVal else val), h).
Proof.
  intros Hdots. rewrite fallbackValue_path, (tokenize_dots_only p Hdots).
  reflexivity.
Qed.

Lemma fallbackValue_dots_only_witness :
  (forall c, has_char c ".." -> c = "."%char) /\
  fallbackValue VNull (PathString "..") (VString "D") builtins
  = (Normal VNull, builtins).
Proof.
  assert (H : forall c, has_char c ".." -> c = "."%char).
  { unfold has_char. simpl. intros c [<-|[<-|[]]]; reflexivity. }
  split; [exact H|].
  exact (fallbackValue_dots_only VNull ".." (VString "D") builtins H).
Defined.

(** X14.  A key with a dot or an opening bracket in it is not looked up by
    writing it as the path: against an object whose only own property is
    that key, the call returns the fallback, or the object itself when the
    path has no segment at all; the value stored under the key is not
    read. *)
Theorem fallbackValue_unescaped_key k v defaultVal h l :
  has_char "." k \/ has_char "[" k ->
  h !! l = Some (object_literal [(k, v)]) ->
  fallbackValue (VObject l) (PathString k) defaultVal h = (Normal defaultVal, h)
  \/ (tokenize k = []
      /\ fallbackValue (VObject l) (PathString k) defaultVal h
         = (Normal (VObject l), h)).
Proof.
  intros Hspecial Hl.
  assert (Hnot : k ∉ tokenize k).
  { intros Hin. pose proof (tokenize_loses_separator k Hspecial).
    pose proof (total_length_elem k (tokenize k) Hin). lia. }
  rewrite fallbackValue_path.
  destruct (tokenize k) as [|segment rest] eqn:Htok.
  - right. split; reflexivity.
  - left. rewrite for_segments_step.
    destruct (UNSAFE_KEYS_has segment); [reflexivity|].
    rewrite not_traversable_object. unfold deref. rewrite Hl.
    cbn [default from_option id]. unfold object_literal. cbn [obj_props].
    change (reverse [(k, v)]) with [(k, v)]. cbn [list_to_map foldr uncurry].
    rewrite lookup_insert_ne; [rewrite lookup_empty; reflexivity|].
    intros <-. apply Hnot. constructor.
Qed.

Lemma fallbackValue_unescaped_key_witness :
  has_char "." "first.name" /\
  heap_dotted_key !! root
  = Some (object_literal [("first.name", VString "Alice")]) /\
  fallbackValue (VObject root) (PathString "first.name") (VString "Unknown")
    heap_dotted_key = (Normal (VString "Unknown"), heap_dotted_key).
Proof.
  assert (H : has_char "." "first.name") by (unfold has_char; simpl; tauto).
  assert (Hl : heap_dotted_key !! root
               = Some (object_literal [("first.name", VString "Alice")]))
    by reflexivity.
  split; [exact H|]. split; [exact Hl|].
  destruct (fallbackValue_unescaped_key "first.name" (VString "Alice")
              (VString "Unknown") heap_dotted_key root (or_introl H) Hl)
    as [Hres|[Htok _]]; [exact Hres|discriminate Htok].
Defined.

End TraverserMore.

(** ** Facts about the traverser over objects with accessors *)

Module AccessorFacts.
Import JS Tokenizer Traverser TokenizerFacts TraverserFacts.
Import Accessors.

Lemma traversable_is_object h current :
  not_traversable h current = false -> exists l, current = VObject l.
Proof. destruct current; try discriminate; eauto. Qed.

Lemma object_is_traversable h l : not_traversable h (VObject l) = false.
Proof.
  unfold not_traversable, typeof. destruct (obj_callable (deref h l));
    reflexivity.
Qed.

(** An own property is found before any prototype link is followed. *)
Lemma find_own_property fuel h o key p :
  obj_props o !! key = Some p -> find_property fuel h o key = Some p.
Proof. intros H. destruct fuel; simpl; rewrite H; reflexivity. Qed.

(** The own-property test and the read that follows it, on an object: a
    data property is read, a getter is run, a missing key gives the
    sentinel. *)
Lemma own_or_sentinel_of_object h l segment :
  own_or_sentinel (VObject l) segment h =
  match obj_props (deref h l) !! segment with
  | None => (Normal SENTINEL, h)
  | Some (Data v) => (Normal (Stored v), h)
  | Some (Accessor g) =>
      match getter_result g with
      | Normal v => (Normal (Stored v), after g h)
      | Throw e => (Throw e, after g h)
      end
  end.
Proof.
  unfold own_or_sentinel, bind, reading, ret, hasOwnProperty, get. simpl.
  destruct (obj_props (deref h l) !! segment) as [p|] eqn:E.
  - rewrite bool_decide_eq_true_2 by eauto.
    rewrite (find_own_property _ _ _ _ _ E).
    destruct p as [v|g]; [reflexivity|].
    unfold run_getter. destruct (getter_result g); reflexivity.
  - rewrite bool_decide_eq_false_2; [reflexivity|].
    intros [v Hv]. discriminate.
Qed.

(** One iteration of the [for] loop. *)
Lemma loop_step h segment rest current defaultVal :
  for_segments (segment :: rest) current defaultVal h =
  if UNSAFE_KEYS_has segment then (Normal (Returned defaultVal), h)
  else if not_traversable h current then (Normal (Returned defaultVal), h)
  else match current with
       | VObject l =>
           match obj_props (deref h l) !! segment with
           | None => (Normal (Returned defaultVal), h)
           | Some (Data v) => for_segments rest v defaultVal h
           | Some (Accessor g) =>
               match getter_result g with
               | Normal v => for_segments rest v defaultVal (after g h)
               | Throw e => (Throw e, after g h)
               end
           end
       | _ => (Normal (Returned defaultVal), h)
       end.
Proof.
  cbn [for_segments].
  destruct (UNSAFE_KEYS_has segment); [reflexivity|].
  unfold bind at 1. unfold reading at 1.
  destruct (not_traversable h current) eqn:Hstop; [reflexivity|].
  destruct (traversable_is_object _ _ Hstop) as [l ->].
  unfold bind. rewrite own_or_sentinel_of_object.
  destruct (obj_props (deref h l) !! segment) as [[v|g]|]; try reflexivity.
  destruct (getter_result g); reflexivity.
Qed.

(** Every [return] inside the loop returns [defaultVal]. *)
Lemma loop_returned segments : forall h h' current defaultVal r,
  for_segments segments current defaultVal h = (Normal (Returned r), h') ->
  r = defaultVal.
Proof.
  induction segments as [|segment rest IH]; intros h h' current defaultVal r.
  - discriminate.
  - rewrite loop_step.
    destruct (UNSAFE_KEYS_has segment); [congruence|].
    destruct (not_traversable h current); [congruence|].
    destruct current; try congruence.
    destruct (obj_props (deref h l) !! segment) as [[v|g]|];
      [apply IH| |congruence].
    destruct (getter_result g); [apply IH|discriminate].
Qed.

Lemma loop_app pre post : forall h current defaultVal,
  for_segments (pre ++ post) current defaultVal h =
  match for_segments pre current defaultVal h with
  | (Normal (Finished c), h') => for_segments post c defaultVal h'
  | r => r
  end.
Proof.
  induction pre as [|segment pre IH]; intros h current defaultVal.
  - reflexivity.
  - rewrite <- app_comm_cons, !loop_step.
    destruct (UNSAFE_KEYS_has segment); [reflexivity|].
    destruct (not_traversable h current); [reflexivity|].
    destruct current; try reflexivity.
    destruct (obj_props (deref h l) !! segment) as [[v|g]|];
      [apply IH| |reflexivity].
    destruct (getter_result g); [apply IH|reflexivity].
Qed.

Lemma data_only_own h l key p :
  data_only h -> obj_props (deref h l) !! key = Some p -> exists v, p = Data v.
Proof.
  intros Hdata. unfold deref. destruct (h !! l) as [o|] eqn:Hl; simpl.
  - apply (Hdata l o key p Hl).
  - rewrite lookup_empty. discriminate.
Qed.

(** Over data properties the loop ends normally in the heap it started
    from, either by returning [defaultVal] or on the value that the
    segments lead to. *)
Lemma loop_on_data segments : forall h current defaultVal,
  data_only h ->
  exists c, for_segments segments current defaultVal h = (Normal c, h)
            /\ (c = Returned defaultVal
                \/ exists v, c = Finished v /\ reaches h current segments v).
Proof.
  induction segments as [|segment rest IH]; intros h current defaultVal Hdata.
  - exists (Finished current). split; [reflexivity|]. right.
    exists current. split; [reflexivity|constructor].
  - rewrite loop_step.
    destruct (UNSAFE_KEYS_has segment); [eauto|].
    destruct (not_traversable h current); [eauto|].
    destruct current; eauto.
    destruct (obj_props (deref h l) !! segment) as [p|] eqn:Hown; [|eauto].
    destruct (data_only_own h l segment p Hdata Hown) as [v ->].
    destruct (IH h v defaultVal Hdata) as (c & Hloop & Hc).
    exists c. split; [exact Hloop|].
    destruct Hc as [->|(w & -> & Hr)]; [left; reflexivity|].
    right. exists w. split; [reflexivity|]. econstructor; eauto.
Qed.

(** The result of [fallbackValue] in terms of the way the loop ends. *)
Lemma fallbackValue_of_loop val p defaultVal h :
  fallbackValue val (PathString p) defaultVal h =
  match for_segments (tokenize p) val defaultVal h with
  | (Normal (Returned r), h') => (Normal r, h')
  | (Normal (Finished current), h') =>
      (Normal (if is_undefined current then defaultVal else current), h')
  | (Throw e, h') => (Throw e, h')
  end.
Proof.
  unfold fallbackValue, bind. simpl.
  destruct (for_segments (tokenize p) val defaultVal h) as [[[r|c]|e] h'];
    reflexivity.
Qed.

(** *** The data fragment inside this model *)

Lemma data_only_lift h : data_only (lift h).
Proof.
  intros l o key p Hl Hp. unfold lift in Hl. rewrite lookup_fmap in Hl.
  destruct (h !! l) as [o0|]; [|discriminate]. injection Hl as <-.
  simpl in Hp. rewrite lookup_fmap in Hp.
  destruct (JS.obj_props o0 !! key) as [v|]; [|discriminate].
  injection Hp as <-. eauto.
Qed.

Lemma deref_lift h l : deref (lift h) l = lift_object (JS.deref h l).
Proof.
  unfold deref, JS.deref, lift. rewrite lookup_fmap.
  destruct (h !! l); [reflexivity|].
  unfold lift_object, empty_object. simpl. rewrite fmap_empty. reflexivity.
Qed.

Lemma not_traversable_lift h current :
  not_traversable (lift h) current = Traverser.not_traversable h current.
Proof.
  destruct current; try reflexivity.
  rewrite object_is_traversable, not_traversable_object. reflexivity.
Qed.

(** On a heap of the data fragment the two embeddings of the loop agree. *)
Lemma loop_lift segments : forall h current defaultVal,
  for_segments segments current defaultVal (lift h)
  = (fst (Traverser.for_segments segments current defaultVal h), lift h).
Proof.
  induction segments as [|segment rest IH]; intros h current defaultVal.
  - reflexivity.
  - rewrite loop_step, for_segments_step, not_traversable_lift.
    destruct (UNSAFE_KEYS_has segment); [reflexivity|].
    destruct (Traverser.not_traversable h current); [reflexivity|].
    destruct current; try reflexivity.
    rewrite deref_lift. simpl. rewrite lookup_fmap.
    destruct (JS.obj_props (JS.deref h l) !! segment); [apply IH|reflexivity].
Qed.

(** On a heap of the data fragment the two embeddings of [fallbackValue]
    agree. *)
Lemma fallbackValue_lift val path defaultVal h :
  fallbackValue val path defaultVal (lift h)
  = (fst (Traverser.fallbackValue val path defaultVal h), lift h).
Proof.
  destruct path as [| |p]; try reflexivity.
  rewrite fallbackValue_of_loop, fallbackValue_path, loop_lift.
  destruct (Traverser.for_segments (tokenize p) val defaultVal h)
    as [[[r|c]|e] h']; reflexivity.
Qed.

(** *** The search and the fallback *)

Lemma loop_fallback_free segments : forall current h,
  exists (res : outcome (option value)) (h' : heap), forall defaultVal,
    for_segments segments current defaultVal h =
    (match res with
     | Normal (Some c) => Normal (Finished c)
     | Normal None => Normal (Returned defaultVal)
     | Throw e => Throw e
     end, h').
Proof.
  induction segments as [|segment rest IH]; intros current h.
  - exists (Normal (Some current)), h. reflexivity.
  - assert (Hnone : (forall d,
        for_segments (segment :: rest) current d h = (Normal (Returned d), h))
        -> exists (res : outcome (option value)) (h' : heap), forall d,
             for_segments (segment :: rest) current d h =
             (match res with
              | Normal (Some c) => Normal (Finished c)
              | Normal None => Normal (Returned d)
              | Throw e => Throw e
              end, h')).
    { intros H. exists (Normal None), h. exact H. }
    destruct (UNSAFE_KEYS_has segment) eqn:Hu.
    { apply Hnone. intros d. rewrite loop_step, Hu. reflexivity. }
    destruct (not_traversable h current) eqn:Hn.
    { apply Hnone. intros d. rewrite loop_step, Hu, Hn. reflexivity. }
    destruct (traversable_is_object _ _ Hn) as [l ->].
    destruct (obj_props (deref h l) !! segment) as [[v|g]|] eqn:Hown.
    + destruct (IH v h) as (res & h' & Hres). exists res, h'. intros d.
      rewrite loop_step, Hu, Hn, Hown. apply Hres.
    + destruct (getter_result g) as [v|e] eqn:Hg.
      * destruct (IH v (after g h)) as (res & h' & Hres). exists res, h'.
        intros d. rewrite loop_step, Hu, Hn, Hown, Hg. apply Hres.
      * exists (Throw e), (after g h). intros d.
        rewrite loop_step, Hu, Hn, Hown, Hg. reflexivity.
    + apply Hnone. intros d. rewrite loop_step, Hu, Hn, Hown.
      reflexivity.
Qed.

End AccessorFacts.

(** ** Properties of the traverser over objects with accessors *)

Module AccessorClaims.
Import JS Tokenizer Traverser TokenizerFacts TraverserFacts.
Import Accessors AccessorFacts.

(** C1 as stated fails on a root with a getter that throws: the read of the
    own property [boom] runs the getter, and the exception leaves the
    call. *)
Lemma throwing_getter_throws :
  fallbackValue (VObject root) (PathString "boom") (VString "D")
    heap_throwing_getter = (Throw TypeError, heap_throwing_getter).
Proof. reflexivity. Qed.

(** C1, as amended.  When the objects carry data properties only, then for
    every root value, every path argument (absent, null or any string, well
    formed or not) and every fallback the call returns normally, and what
    it returns is the fallback, or else the value that the segments of the
    path lead to through own properties (the root value itself when no path
    is given): every way the search fails returns the fallback. *)
Theorem fallbackValue_never_throws val path defaultVal h :
  data_only h ->
  exists r, fallbackValue val path defaultVal h = (Normal r, h)
            /\ (r = defaultVal
                \/ match path_given path with
                   | Some p => reaches h val (tokenize p) r
                   | None => r = val
                   end).
Proof.
  intros Hdata. destruct path as [| |p].
  - eexists. split; [reflexivity|]. simpl.
    destruct (loose_eq_null val); auto.
  - eexists. split; [reflexivity|]. simpl.
    destruct (loose_eq_null val); auto.
  - rewrite fallbackValue_of_loop.
    destruct (loop_on_data (tokenize p) h val defaultVal Hdata)
      as (c & -> & [->|(v & -> & Hr)]).
    + eexists. split; [reflexivity|]. left. reflexivity.
    + eexists. split; [reflexivity|]. simpl.
      destruct (is_undefined v); [left; reflexivity|right; exact Hr].
Qed.

Lemma fallbackValue_never_throws_witness :
  data_only (lift Scenario.heap_items) /\
  exists r, fallbackValue (VObject root) (PathString "items[9") (VNumber (-1))
              (lift Scenario.heap_items)
            = (Normal r, lift Scenario.heap_items).
Proof.
  assert (Hdata : data_only (lift Scenario.heap_items))
    by apply data_only_lift.
  split; [exact Hdata|].
  destruct (fallbackValue_never_throws (VObject root) (PathString "items[9")
              (VNumber (-1)) (lift Scenario.heap_items) Hdata)
    as (r & Hr & _).
  exists r. exact Hr.
Defined.

(** C9 as stated fails on a root with a getter that assigns: resolving [a]
    runs the getter, and the root has the own property [count] afterwards,
    which it did not have before. *)
Lemma counting_getter_writes :
  obj_props (deref heap_counting_getter root) !! "count" = None /\
  obj_props
    (deref (snd (fallbackValue (VObject root) (PathString "a") (VNumber 0)
                   heap_counting_getter)) root) !! "count"
  = Some (Data (VNumber 1)) /\
  snd (fallbackValue (VObject root) (PathString "a") (VNumber 0)
         heap_counting_getter) <> heap_counting_getter.
Proof.
  split; [reflexivity|]. split; [reflexivity|].
  intros Heq.
  assert (H : obj_props
                (deref (snd (fallbackValue (VObject root) (PathString "a")
                               (VNumber 0) heap_counting_getter)) root)
              !! "count" = None) by (rewrite Heq; reflexivity).
  vm_compute in H. discriminate H.
Qed.

(** C9, as amended.  When the objects carry data properties only, a call
    leaves the heap as it found it: the root and every object reachable
    from it are, after the call, what they were before. *)
Theorem fallbackValue_preserves_heap val path defaultVal h :
  data_only h ->
  snd (fallbackValue val path defaultVal h) = h
  /\ (forall l, deref (snd (fallbackValue val path defaultVal h)) l
                = deref h l)
  /\ snd (call_fallbackValue val path defaultVal h) = h.
Proof.
  intros Hdata.
  assert (Hsnd : forall d, snd (fallbackValue val path d h) = h).
  { intros d. destruct path as [| |p]; try reflexivity.
    rewrite fallbackValue_of_loop.
    destruct (loop_on_data (tokenize p) h val d Hdata) as (c & -> & _).
    destruct c; reflexivity. }
  repeat split.
  - apply Hsnd.
  - intros l. rewrite Hsnd. reflexivity.
  - unfold call_fallbackValue. apply Hsnd.
Qed.

Lemma fallbackValue_preserves_heap_witness :
  data_only (lift Scenario.heap_matrix) /\
  snd (fallbackValue (VObject root) (PathString "matrix[1][0]") (VNumber 0)
         (lift Scenario.heap_matrix)) = lift Scenario.heap_matrix.
Proof.
  assert (Hdata : data_only (lift Scenario.heap_matrix))
    by apply data_only_lift.
  split; [exact Hdata|].
  exact (proj1 (fallbackValue_preserves_heap (VObject root)
                  (PathString "matrix[1][0]") (VNumber 0)
                  (lift Scenario.heap_matrix) Hdata)).
Defined.

(** C2 as stated fails when a getter stands before the reserved key:
    resolving [a.__proto__] runs the getter of [a], which assigns to
    [Object.prototype], before the reserved segment is met; the fallback is
    returned, but [Object.prototype] has an own property that it did not
    have. *)
Lemma polluting_getter_before_reserved_key :
  "__proto__" ∈ tokenize "a.__proto__" /\
  fst (fallbackValue (VObject root) (PathString "a.__proto__")
         (VString "safe") heap_polluting_getter) = Normal (VString "safe") /\
  obj_props (deref heap_polluting_getter loc_ObjectPrototype) !! "polluted"
  = None /\
  obj_props
    (deref (snd (fallbackValue (VObject root) (PathString "a.__proto__")
                   (VString "safe") heap_polluting_getter))
       loc_ObjectPrototype) !! "polluted"
  = Some (Data (VBoolean true)).
Proof.
  split; [vm_compute; repeat constructor|].
  repeat split; reflexivity.
Qed.

(** C2, as amended.  A reserved key ([__proto__], [constructor],
    [prototype]) makes the loop return the fallback at its segment, before
    any test or read of the current value and whatever segments follow.  So
    a path whose segments contain a reserved key resolves to the fallback
    and leaves the heap, with the own properties of [Object.prototype], as
    it was: for every root value when the reserved key is the first
    segment, and wherever it stands when the objects carry data properties
    only.  In general the call does what the traversal of the segments
    before the reserved one does, and returns the fallback unless that
    traversal throws. *)
Theorem unsafe_key_blocked val p defaultVal h segment :
  segment = "__proto__" \/ segment = "constructor" \/ segment = "prototype" ->
  (forall current rest h0,
     for_segments (segment :: rest) current defaultVal h0 =
     (Normal (Returned defaultVal), h0))
  /\ (forall rest, tokenize p = segment :: rest ->
        fallbackValue val (PathString p) defaultVal h = (Normal defaultVal, h))
  /\ (data_only h -> segment ∈ tokenize p ->
        fallbackValue val (PathString p) defaultVal h = (Normal defaultVal, h)
        /\ obj_props
             (deref (snd (fallbackValue val (PathString p) defaultVal h))
                loc_ObjectPrototype)
           = obj_props (deref h loc_ObjectPrototype))
  /\ (forall pre rest, tokenize p = (pre ++ segment :: rest)%list ->
        fallbackValue val (PathString p) defaultVal h =
        match for_segments pre val defaultVal h with
        | (Normal _, h') => (Normal defaultVal, h')
        | (Throw e, h') => (Throw e, h')
        end).
Proof.
  intros Hkey.
  assert (Hu : UNSAFE_KEYS_has segment = true)
    by (apply UNSAFE_KEYS_has_spec; tauto).
  assert (Hstep : forall current rest h0,
            for_segments (segment :: rest) current defaultVal h0 =
            (Normal (Returned defaultVal), h0)).
  { intros current rest h0. rewrite loop_step, Hu. reflexivity. }
  assert (Hgen : forall pre rest, tokenize p = (pre ++ segment :: rest)%list ->
            fallbackValue val (PathString p) defaultVal h =
            match for_segments pre val defaultVal h with
            | (Normal _, h') => (Normal defaultVal, h')
            | (Throw e, h') => (Throw e, h')
            end).
  { intros pre rest Htok. rewrite fallbackValue_of_loop, Htok, loop_app.
    destruct (for_segments pre val defaultVal h) as [[[r|c]|e] h'] eqn:Hpre.
    - apply loop_returned in Hpre as ->. reflexivity.
    - rewrite Hstep. reflexivity.
    - reflexivity. }
  split; [exact Hstep|]. split; [|split; [|exact Hgen]].
  - intros rest Htok. rewrite (Hgen [] rest Htok). reflexivity.
  - intros Hdata Hin.
    apply list_elem_of_split in Hin as (pre & rest & Htok).
    assert (Hres : fallbackValue val (PathString p) defaultVal h
                   = (Normal defaultVal, h)).
    { rewrite (Hgen pre rest Htok).
      destruct (loop_on_data pre h val defaultVal Hdata) as (c & -> & _).
      reflexivity. }
    split; [exact Hres|]. rewrite Hres. reflexivity.
Qed.

Lemma unsafe_key_blocked_witness :
  data_only (lift Scenario.heap_nested) /\
  "__proto__" ∈ tokenize "a.__proto__" /\
  fallbackValue (VObject root) (PathString "a.__proto__") (VString "safe")
    (lift Scenario.heap_nested)
  = (Normal (VString "safe"), lift Scenario.heap_nested).
Proof.
  assert (Hdata : data_only (lift Scenario.heap_nested))
    by apply data_only_lift.
  assert (Hin : "__proto__" ∈ tokenize "a.__proto__")
    by (vm_compute; repeat constructor).
  split; [exact Hdata|]. split; [exact Hin|].
  refine (proj1 (proj1 (proj2 (proj2
            (unsafe_key_blocked (VObject root) "a.__proto__" (VString "safe")
               (lift Scenario.heap_nested) "__proto__" (or_introl eq_refl))))
            Hdata Hin)).
Defined.

(** X6.  The fallback plays no part in the search, getters included: for a
    root, a path and a heap there is one outcome of the search (a value
    found, nothing found, or an exception out of a getter) and one heap
    after it, and for every third argument the call returns the value
    found, or else the fallback in force: the argument as it was given, or
    [null] when it is left out or [undefined]. *)
Theorem fallback_plays_no_part val path h :
  exists (res : outcome (option value)) (h' : heap), forall arg,
    call_fallbackValue val path arg h =
    (match res with
     | Normal found =>
         Normal (default (if is_undefined arg then VNull else arg) found)
     | Throw e => Throw e
     end, h').
Proof.
  assert (Hnone : exists (res : outcome (option value)) (h' : heap),
    forall arg,
      fallbackValue val PathNull (if is_undefined arg then VNull else arg) h =
      (match res with
       | Normal found =>
           Normal (default (if is_undefined arg then VNull else arg) found)
       | Throw e => Throw e
       end, h')).
  { exists (Normal (if loose_eq_null val then None else Some val)), h.
    intros arg. unfold fallbackValue. simpl.
    destruct (loose_eq_null val); reflexivity. }
  unfold call_fallbackValue. destruct path as [| |p]; [exact Hnone..|].
  destruct (loop_fallback_free (tokenize p) val h) as (res & h' & Hres).
  destruct res as [[c|]|e].
  - exists (Normal (if is_undefined c then None else Some c)), h'.
    intros arg. rewrite fallbackValue_of_loop, Hres.
    destruct (is_undefined c); reflexivity.
  - exists (Normal None), h'. intros arg.
    rewrite fallbackValue_of_loop, Hres. reflexivity.
  - exists (Throw e), h'. intros arg.
    rewrite fallbackValue_of_loop, Hres. reflexivity.
Qed.

End AccessorClaims.
